(** * The Clara front end: type checking, constructor synthesis and parsing

    A shallow embedding of [semantic.go] (the type checker [typeCheck],
    the pass [generateStructConstructors] and the tree walk [walk]), of
    the recursive-descent parser ([Parser.need], [Parser.next],
    [Parser.syntaxError], [Parse]), of the token loop of [main] and of
    the opcode lists of [x64.go], followed by the properties proved about
    them.

    Go pointers that the code tests against [nil] or dereferences are
    [option]s; a dereference of [nil], an explicit [panic] and a failed
    downcast are an outcome of their own, next to normal completion. *)

From Stdlib Require Import String List ZArith Lia Bool Ascii DecimalString.
From Stdlib Require HexadecimalString.
Import ListNotations.
Local Open Scope string_scope.
Local Open Scope list_scope.

Set Implicit Arguments.
Set Warnings "-register-all".

(* ------------------------------------------------------------------ *)
(** ** Outcomes of a Go call *)

Inductive PanicKind :=
| NilDeref         (* nil pointer dereference *)
| BadCast          (* failed type assertion in AsFunction / AsStruct *)
| SliceBounds      (* name[:1] on an empty string *)
| RootNode         (* panic("Type check called on root node of AST") *)
| NotProcessed.    (* panic("Node type [...] not processed during type check!") *)

Inductive Result (A : Type) :=
| Done (a : A)
| Panic (why : PanicKind)
| OutOfFuel.

Arguments Done {A} a.
Arguments Panic {A} why.
Arguments OutOfFuel {A}.

Definition bind {A B} (m : Result A) (k : A -> Result B) : Result B :=
  match m with
  | Done a => k a
  | Panic w => Panic w
  | OutOfFuel => OutOfFuel
  end.

Declare Scope go_scope.
Delimit Scope go_scope with go.
Notation "x <- m ;; k" := (bind m (fun x => k))
  (at level 100, m at next level, right associativity) : go_scope.
Notation "' p <- m ;; k" := (bind m (fun x => match x with p => k end))
  (at level 100, p pattern, m at next level, right associativity) : go_scope.
Local Open Scope go_scope.

(** [*p] for a nullable pointer. *)
Definition deref {A} (o : option A) : Result A :=
  match o with
  | Some a => Done a
  | None => Panic NilDeref
  end.

(* ------------------------------------------------------------------ *)
(** ** Tokens (delivered by the lexer) *)

Module Lex.

Inductive Kind :=
| Fn | Identifier | LParen | RParen | LBrace | RBrace | Comma
| Integer | String | EOF | EOL | Space | Comment | Err.

Definition Kind_eqb (a b : Kind) : bool :=
  match a, b with
  | Fn, Fn | Identifier, Identifier | LParen, LParen | RParen, RParen
  | LBrace, LBrace | RBrace, RBrace | Comma, Comma | Integer, Integer
  | String, String | EOF, EOF | EOL, EOL | Space, Space
  | Comment, Comment | Err, Err => true
  | _, _ => false
  end.

Record Token := MkToken {
  Kind_ : Kind;
  Val : string;
  File : string;
  Line : Z;
  Pos : Z
}.

End Lex.

(* ------------------------------------------------------------------ *)
(** ** The semantic passes of [semantic.go] *)

Module Semantic.

(** Modelled from the spec: the kind tags of a [Type] (the declaration
    is not part of the sources at hand).  [Byte] is the kind of the
    "single-byte type" [byteType] that string indexing yields. *)
Inductive TypeKind :=
| Struct | Function | Integer | Boolean | String | Byte | Array | Nothing.

Definition TypeKind_eqb (a b : TypeKind) : bool :=
  match a, b with
  | Struct, Struct | Function, Function | Integer, Integer
  | Boolean, Boolean | String, String | Byte, Byte | Array, Array
  | Nothing, Nothing => true
  | _, _ => false
  end.

(** Operator kinds of a node ([n.op]). *)
Inductive Op :=
| opFuncDcl | opFuncCall | opIdentifier | opLit
| opAdd | opMin | opMul | opDiv | opAnd | opOr
| opGt | opLt | opEq | opNot
| opIf | opElseIf | opElse | opReturn
| opStruct | opDot | opArray | opRoot | opError.

Definition Op_eqb (a b : Op) : bool :=
  match a, b with
  | opFuncDcl, opFuncDcl | opFuncCall, opFuncCall
  | opIdentifier, opIdentifier | opLit, opLit | opAdd, opAdd
  | opMin, opMin | opMul, opMul | opDiv, opDiv | opAnd, opAnd
  | opOr, opOr | opGt, opGt | opLt, opLt | opEq, opEq | opNot, opNot
  | opIf, opIf | opElseIf, opElseIf | opElse, opElse
  | opReturn, opReturn | opStruct, opStruct | opDot, opDot
  | opArray, opArray | opRoot, opRoot | opError, opError => true
  | _, _ => false
  end.

(** The format constants of the diagnostics. *)
Inductive ErrMsg :=
| errUndefinedMsg | errNotFuncMsg | errTooManyArgsMsg | errTooFewArgsMsg
| errUnknownTypeMsg | errUnknownVarMsg | errStructNamingLowerMsg
| errNotStructMsg | errStructHasNoFieldMsg | errInvalidDotSelectionMsg
| errInvalidOperatorTypeMsg | errMismatchedTypesMsg | errNonIntegerIndexMsg.

(** Modelled from the spec: [Type] is a kind tag with an attached
    descriptor ([Data]); [FunctionType] and [StructType] carry the fields
    the code reads and writes; an [Array<T>] is written with the
    descriptor [ArrayData T]; a struct's ordered field list supports the
    lookup name -> (symbol, byte offset).  The descriptors are stated over
    the type [T] of types and the type [S] of scopes, and tied together in
    [Type_]; the scope type is kept abstract, its declaration and its
    methods [Resolve] and [Define] not being among the sources. *)
Record Symbol_ (T : Type) := MkSymbol {
  Name : string;
  Addr : Z;
  SymType : T
}.

Record FunctionType_ (T S : Type) := MkFunctionType {
  FnName : string;
  ArgCount : Z;
  isVariadic : bool;
  isConstructor : bool;
  ret : T;
  args : S
}.

Record StructType_ (T : Type) := MkStructType {
  StructName : string;
  Fields : list (Symbol_ T * Z)
}.

Inductive TypeData_ (T S : Type) :=
| NoData
| FunctionData (f : FunctionType_ T S)
| StructData (s : StructType_ T)
| ArrayData (elem : T).

Arguments NoData {T S}.
Arguments FunctionData {T S} f.
Arguments StructData {T S} s.
Arguments ArrayData {T S} elem.

Inductive Type_ (S : Type) := MkType {
  Kind : TypeKind;
  Data : TypeData_ (Type_ S) S
}.

Abbreviation Symbol S := (Symbol_ (Type_ S)).
Abbreviation FunctionType S := (FunctionType_ (Type_ S) S).
Abbreviation StructType S := (StructType_ (Type_ S)).
Abbreviation TypeData S := (TypeData_ (Type_ S) S).

Definition ErrMsg_eq_dec (a b : ErrMsg) : {a = b} + {a <> b}.
Proof. decide equality. Defined.

Section Types.

Variable SymTab : Type.

Local Abbreviation Type_ := (Type_ SymTab).
Local Abbreviation Symbol := (Symbol SymTab).
Local Abbreviation FunctionType := (FunctionType SymTab).
Local Abbreviation StructType := (StructType SymTab).

(** [t.Is(kind)]: "a type is a kind via a single predicate check". *)
Definition Is (t : Type_) (k : TypeKind) : bool :=
  TypeKind_eqb (Kind t) k.

(** [t.AsFunction()] and [t.AsStruct()]: downcasts of the descriptor,
    fatal when the descriptor is of another shape. *)
Definition AsFunction (t : Type_) : Result FunctionType :=
  match Data t with
  | FunctionData f => Done f
  | _ => Panic BadCast
  end.

Definition AsStruct (t : Type_) : Result StructType :=
  match Data t with
  | StructData s => Done s
  | _ => Panic BadCast
  end.

(** [strct.Offset(name)]: the field symbol and its byte offset, or
    the not-found sentinel. *)
Fixpoint lookupField (name : string) (fs : list (Symbol * Z))
  : option (Symbol * Z) :=
  match fs with
  | [] => None
  | (s, off) :: rest =>
      if String.eqb (Name s) name then Some (s, off)
      else lookupField name rest
  end.

Definition Offset (strct : StructType) (name : string)
  : option (Symbol * Z) :=
  lookupField name (Fields strct).

(** Modelled from the spec: the predeclared types. *)
Definition intType : Type_ := MkType Integer NoData.
Definition boolType : Type_ := MkType Boolean NoData.
Definition byteType : Type_ := MkType Byte NoData.
Definition nothingType : Type_ := MkType Nothing NoData.

(** AST nodes.  [stmts] and [params] hold nodes; [left], [right],
    [token], [sym] and [typ] may be nil. *)
Inductive Node := MkNode {
  token : option Lex.Token;
  left : option Node;
  right : option Node;
  stmts : list Node;
  params : list Node;
  op : Op;
  symtab : SymTab;
  sym : option Symbol;
  typ : option Type_
}.

Definition set_left (n : Node) (l : option Node) : Node :=
  MkNode (token n) l (right n) (stmts n) (params n) (op n) (symtab n)
         (sym n) (typ n).
Definition set_right (n : Node) (r : option Node) : Node :=
  MkNode (token n) (left n) r (stmts n) (params n) (op n) (symtab n)
         (sym n) (typ n).
Definition set_stmts (n : Node) (ss : list Node) : Node :=
  MkNode (token n) (left n) (right n) ss (params n) (op n) (symtab n)
         (sym n) (typ n).
Definition set_params (n : Node) (ps : list Node) : Node :=
  MkNode (token n) (left n) (right n) (stmts n) ps (op n) (symtab n)
         (sym n) (typ n).
Definition set_symtab (n : Node) (st : SymTab) : Node :=
  MkNode (token n) (left n) (right n) (stmts n) (params n) (op n) st
         (sym n) (typ n).
Definition set_sym (n : Node) (s : option Symbol) : Node :=
  MkNode (token n) (left n) (right n) (stmts n) (params n) (op n)
         (symtab n) s (typ n).
Definition set_typ (n : Node) (t : option Type_) : Node :=
  MkNode (token n) (left n) (right n) (stmts n) (params n) (op n)
         (symtab n) (sym n) t.

(** [n.hasType()] *)
Definition hasType (n : Node) : bool :=
  match typ n with
  | Some _ => true
  | None => false
  end.

(** [n.Add(stat)] *)
Definition Add (n stat : Node) : Node :=
  set_stmts n (stmts n ++ [stat]).

(** The number of nodes of a tree, the measure of the checker's work. *)
Fixpoint size (n : Node) : nat :=
  match n with
  | MkNode _ l r ss ps _ _ _ _ =>
      S (match l with Some x => size x | None => 0 end
         + match r with Some x => size x | None => 0 end
         + list_sum (map size ss) + list_sum (map size ps))
  end.

(** Diagnostics: the format constant, the position taken from the
    token and the remaining format arguments in order. *)
Inductive ErrArg :=
| AStr (s : string)
| AKind (k : TypeKind)
| ATypeName (t : Type_).     (* t.Name() *)

Record error := MkError {
  msg : ErrMsg;
  file : string;
  line : Z;
  col : Z;
  vals : list ErrArg
}.

Definition semanticError (m : ErrMsg) (t : Lex.Token)
           (vs : list ErrArg) : error :=
  MkError m (Lex.File t) (Lex.Line t) (Lex.Pos t)
          (AStr (Lex.Val t) :: vs).

Definition semanticError2 (m : ErrMsg) (t : Lex.Token)
           (vs : list ErrArg) : error :=
  MkError m (Lex.File t) (Lex.Line t) (Lex.Pos t) vs.

(** [operatorTypes] and [isValid]. *)
Definition operatorTypes (o : Op) : option (list TypeKind) :=
  match o with
  | opAdd => Some [Integer; String; Array]
  | opMin => Some [Integer]
  | opMul => Some [Integer]
  | opDiv => Some [Integer]
  | opOr => Some [Boolean]
  | opAnd => Some [Boolean]
  | _ => None
  end.

Definition isValid (o : Op) (tk : TypeKind) : bool :=
  match operatorTypes o with
  | None => false
  | Some tks => existsb (fun t => TypeKind_eqb t tk) tks
  end.

(** The operators of the case [opAnd, opOr, opAdd, opMul, opMin, opDiv]. *)
Definition isOperator (o : Op) : bool :=
  match o with
  | opAnd | opOr | opAdd | opMul | opMin | opDiv => true
  | _ => false
  end.

End Types.

Arguments AStr {SymTab} s.
Arguments AKind {SymTab} k.
Arguments intType {SymTab}.
Arguments boolType {SymTab}.
Arguments byteType {SymTab}.
Arguments nothingType {SymTab}.

(** The scope operations the passes call. *)
Class SymTabOps (SymTab : Type) := {
  Resolve : SymTab -> string -> option (Symbol SymTab);
  Define : SymTab -> Symbol SymTab -> SymTab
}.

Section Checker.

Context {SymTab : Type} {ops : SymTabOps SymTab}.

Local Abbreviation Node := (Node SymTab).
Local Abbreviation error := (error SymTab).
Local Abbreviation Checked := (Result (Node * list error)).

(** [typeCheck(c)] on a child slot: entering [typeCheck] with a nil
    node dereferences it at once ([n.left]). *)
Definition checkChild (chk : Node -> Checked) (c : option Node)
  : Checked :=
  c' <- deref c ;; chk c'.

(** [for _, stmt := range l { errs = append(errs, typeCheck(stmt)...) }];
    every statement is updated in place. *)
Fixpoint checkAll (chk : Node -> Checked) (l : list Node)
  : Result (list Node * list error) :=
  match l with
  | [] => Done ([], [])
  | x :: xs =>
      '(x', e1) <- chk x ;;
      '(xs', e2) <- checkAll chk xs ;;
      Done (x' :: xs', e1 ++ e2)
  end.

(** [printTypeInfo(n)] only prints, but it reads [n.token.File]. *)
Definition printTypeInfo (n : Node) : Result unit :=
  _ <- deref (token n) ;; Done tt.

(** Leaving the [switch] normally: the debug print, then [end]. *)
Definition finish (n : Node) (errs : list error) : Checked :=
  _ <- printTypeInfo n ;; Done (n, errs).

(** The case [opAnd, opOr, opAdd, opMul, opMin, opDiv], after both
    operands were checked ([l] and [r] are the checked operands and
    [n] already points to them). *)
Definition checkOperator (n l r : Node) (errs : list error) : Checked :=
  if negb (hasType l) || negb (hasType r) then Done (n, errs) else
  lt <- deref (typ l) ;;
  rt <- deref (typ r) ;;
  if negb (isValid (op n) (Kind lt)) then
    ltok <- deref (token l) ;;
    ntok <- deref (token n) ;;
    Done (n, errs ++ [semanticError2 errInvalidOperatorTypeMsg ltok
                        [ATypeName lt; AStr (Lex.Val ntok)]])
  else if negb (isValid (op n) (Kind rt)) then
    rtok <- deref (token r) ;;
    ntok <- deref (token n) ;;
    Done (n, errs ++ [semanticError2 errInvalidOperatorTypeMsg rtok
                        [ATypeName rt; AStr (Lex.Val ntok)]])
  else
    errs' <- (if negb (TypeKind_eqb (Kind lt) (Kind rt)) then
                ltok <- deref (token l) ;;
                Done (errs ++ [semanticError2 errMismatchedTypesMsg ltok
                                 [ATypeName lt; ATypeName rt]])
              else Done errs) ;;
    finish (set_typ n (Some lt)) errs'.

(** The case [opFuncCall]; [chk] checks an argument. *)
Definition checkCall (chk : Node -> Checked) (n : Node) : Checked :=
  ntok <- deref (token n) ;;
  match Resolve (symtab n) (Lex.Val ntok) with
  | None => Done (n, [semanticError2 errUndefinedMsg ntok []])
  | Some s =>
      if negb (Is (SymType s) Function) then
        Done (n, [semanticError errNotFuncMsg ntok []])
      else
        fn <- AsFunction (SymType s) ;;
        if (Z.of_nat (length (stmts n)) <? ArgCount fn)%Z then
          Done (n, [semanticError errTooFewArgsMsg ntok []])
        else if (Z.of_nat (length (stmts n)) >? ArgCount fn)%Z
                && negb (isVariadic fn) then
          Done (n, [semanticError errTooManyArgsMsg ntok []])
        else
          '(ss, e) <- checkAll chk (stmts n) ;;
          finish (set_typ (set_sym (set_stmts n ss) (Some s))
                          (Some (ret fn))) e
  end.

(** The field-access branch of the case [opDot]: [l] is the checked
    left operand, [r] the right operand, an identifier. *)
Definition checkField (n l r : Node) (errs : list error) : Checked :=
  lsym <- deref (sym l) ;;
  isLen <- (if Is (SymType lsym) String then
              rtok <- deref (token r) ;;
              Done (String.eqb (Lex.Val rtok) "length")
            else Done false) ;;
  if isLen : bool then
    let rsym := MkSymbol "length" 0 intType in
    let r' := set_typ (set_sym r (Some rsym)) (Some (SymType rsym)) in
    Done (set_typ (set_right n (Some r')) (typ r'), errs)
  else if negb (Is (SymType lsym) Struct) then
    ltok <- deref (token l) ;;
    Done (n, errs ++ [semanticError errNotStructMsg ltok []])
  else
    strct <- AsStruct (SymType lsym) ;;
    rtok <- deref (token r) ;;
    match Offset strct (Lex.Val rtok) with
    | None =>
        Done (n, errs ++ [semanticError errStructHasNoFieldMsg rtok
                            [AStr (StructName strct)]])
    | Some (fsym, offset) =>
        let fsym' := MkSymbol (Name fsym) offset (SymType fsym) in
        let r' := set_typ (set_sym r (Some fsym'))
                          (Some (SymType fsym')) in
        finish (set_typ (set_sym (set_right n (Some r')) (sym r'))
                        (typ r')) errs
    end.

(** The rewrite of [left.call(args)] into a call node: operator,
    token and scope of the call, the receiver put in front of the
    arguments, both child slots cleared. *)
Definition rewriteDot (n l r : Node) : Node :=
  MkNode (token r) None None (l :: stmts r) (params n) opFuncCall
         (symtab r) (sym n) (typ n).

(** The body of [typeCheck]: [chk] stands for the recursive calls and
    [fn] is the package variable of that name, the function being
    checked.  The node returned is the node after its in-place updates. *)
Definition typeCheckBody (chk : Node -> Checked)
           (fn : option (FunctionType SymTab)) (n : Node) : Checked :=
  match op n with
  | opIf | opElseIf =>
      '(l, e1) <- checkChild chk (left n) ;;
      let n := set_left n (Some l) in
      if negb (hasType l) then Done (n, e1) else
      lt <- deref (typ l) ;;
      if negb (Is lt Boolean) then
        ltok <- deref (token l) ;;
        Done (n, e1 ++ [semanticError2 errMismatchedTypesMsg ltok
                          [AKind (Kind lt); AKind (Kind (@boolType SymTab))]])
      else
        '(ss, e2) <- checkAll chk (stmts n) ;;
        let n := set_stmts n ss in
        match right n with
        | Some r =>
            '(r', e3) <- chk r ;;
            finish (set_right n (Some r')) (e1 ++ e2 ++ e3)
        | None => finish n (e1 ++ e2)
        end
  | opElse =>
      '(ss, e) <- checkAll chk (stmts n) ;;
      finish (set_stmts n ss) e
  | opReturn =>
      match left n with
      | None => Done (set_typ n (Some nothingType), [])
      | Some l0 =>
          '(l, e1) <- chk l0 ;;
          let n := set_left n (Some l) in
          if negb (hasType l) then Done (n, e1) else
          lt <- deref (typ l) ;;
          f <- deref fn ;;
          if negb (Is (ret f) (Kind lt)) then
            ltok <- deref (token l) ;;
            Done (n, e1 ++ [semanticError2 errMismatchedTypesMsg ltok
                              [AKind (Kind lt); AKind (Kind (ret f))]])
          else finish (set_typ n (Some lt)) e1
      end
  | opAnd | opOr | opAdd | opMul | opMin | opDiv =>
      '(l, e1) <- checkChild chk (left n) ;;
      let n := set_left n (Some l) in
      '(r, e2) <- checkChild chk (right n) ;;
      let n := set_right n (Some r) in
      checkOperator n l r (e1 ++ e2)
  | opNot =>
      '(l, e1) <- checkChild chk (left n) ;;
      let n := set_left n (Some l) in
      if negb (hasType l) then Done (n, e1) else
      lt <- deref (typ l) ;;
      if negb (Is lt Boolean) then
        ltok <- deref (token l) ;;
        Done (n, e1 ++ [semanticError2 errMismatchedTypesMsg ltok
                          [AKind (Kind lt); AKind (Kind (@boolType SymTab))]])
      else finish (set_typ n (Some lt)) e1
  | opLit =>
      s <- deref (sym n) ;;
      finish (set_typ n (Some (SymType s))) []
  | opIdentifier =>
      match sym n with
      | None =>
          ntok <- deref (token n) ;;
          match Resolve (symtab n) (Lex.Val ntok) with
          | None => Done (n, [semanticError errUnknownVarMsg ntok []])
          | Some s =>
              finish (set_typ (set_sym n (Some s)) (Some (SymType s))) []
          end
      | Some s => finish (set_typ n (Some (SymType s))) []
      end
  | opFuncCall => checkCall chk n
  | opGt | opLt | opEq =>
      '(l, e1) <- checkChild chk (left n) ;;
      let n := set_left n (Some l) in
      '(r, e2) <- checkChild chk (right n) ;;
      let n := set_right n (Some r) in
      if negb (hasType l) || negb (hasType r) then Done (n, e1 ++ e2)
      else
        lt <- deref (typ l) ;;
        rt <- deref (typ r) ;;
        if negb (TypeKind_eqb (Kind lt) (Kind rt)) then
          ltok <- deref (token l) ;;
          Done (n, (e1 ++ e2)
                   ++ [semanticError2 errMismatchedTypesMsg ltok
                         [AKind (Kind lt); AKind (Kind rt)]])
        else finish (set_typ n (Some boolType)) (e1 ++ e2)
  | opFuncDcl =>
      '(ps, e1) <- checkAll chk (params n) ;;
      let n := set_params n ps in
      '(ss, e2) <- checkAll chk (stmts n) ;;
      let n := set_stmts n ss in
      s <- deref (sym n) ;;
      finish (set_typ n (Some (SymType s))) (e1 ++ e2)
  | opDot =>
      '(l, e1) <- checkChild chk (left n) ;;
      let n := set_left n (Some l) in
      if negb (hasType l) then Done (n, e1) else
      r <- deref (right n) ;;
      if Op_eqb (op r) opFuncCall then
        '(n', e2) <- chk (rewriteDot n l r) ;;
        finish n' (e1 ++ e2)
      else if Op_eqb (op r) opIdentifier then
        checkField n l r e1
      else
        rtok <- deref (token r) ;;
        Done (n, e1 ++ [semanticError errInvalidDotSelectionMsg rtok []])
  | opArray =>
      '(l, e1) <- checkChild chk (left n) ;;
      let n := set_left n (Some l) in
      '(r, e2) <- checkChild chk (right n) ;;
      let n := set_right n (Some r) in
      if negb (hasType l) || negb (hasType r) then Done (n, e1 ++ e2)
      else
        lt <- deref (typ l) ;;
        rt <- deref (typ r) ;;
        if negb (Is rt Integer) then
          rtok <- deref (token r) ;;
          Done (n, (e1 ++ e2)
                   ++ [semanticError2 errNonIntegerIndexMsg rtok
                         [AKind (Kind rt)]])
        else
          let n := set_typ n (Some lt) in
          let n := if Is lt String then set_typ n (Some byteType)
                   else n in
          finish n (e1 ++ e2)
  | opRoot => Panic RootNode
  | opError => Done (n, [])
  | opStruct => Panic NotProcessed
  end.

(** [typeCheck]: its recursion re-enters on the rewritten dot node, which
    is no part of the node it was called on, so it runs on fuel. *)
Fixpoint typeCheck (fuel : nat) (fn : option (FunctionType SymTab))
         (n : Node) {struct fuel} : Checked :=
  match fuel with
  | O => OutOfFuel
  | S fuel' => typeCheckBody (typeCheck fuel' fn) fn n
  end.

(** [strings.ToUpper] on the one-byte string [name[:1]]: an ASCII
    lowercase letter is mapped to its capital, any other byte is kept. *)
Definition isLower (c : ascii) : bool :=
  (97 <=? nat_of_ascii c)%nat && (nat_of_ascii c <=? 122)%nat.

Definition ToUpper (c : ascii) : ascii :=
  if isLower c then ascii_of_nat (nat_of_ascii c - 32) else c.

(** [&lex.Token{Val : v}]: every other field has its zero value
    ([Lex.Err] stands for the zero value of [lex.Kind]). *)
Definition tokenOf (v : string) : Lex.Token :=
  Lex.MkToken Lex.Err v "" 0 0.

(** [generateStructConstructors(root, symtab, n)], the visitor of the
    constructor-synthesis walk.  The argument [symtab] is not used by the
    body.  The result is the root after [root.symtab.Define] and
    [root.Add], and the error returned (nil or one error). *)
Definition generateStructConstructors (root : Node) (n : Node)
  : Result (Node * option error) :=
  if Op_eqb (op n) opStruct then
    ntok <- deref (token n) ;;
    match Lex.Val ntok with
    | EmptyString => Panic SliceBounds
    | String.String firstLetter rest =>
        if Ascii.eqb (ToUpper firstLetter) firstLetter then
          Done (root, Some (semanticError errStructNamingLowerMsg ntok []))
        else
          let constructorName := String.String (ToUpper firstLetter) rest in
          nsym <- deref (sym n) ;;
          let fnSym :=
            MkSymbol constructorName 0
              (MkType Function
                 (FunctionData
                    (MkFunctionType constructorName
                       (Z.of_nat (length (stmts n))) false true
                       (SymType nsym) (symtab n)))) in
          let root := set_symtab root (Define (symtab root) fnSym) in
          Done (Add root
                    (MkNode (Some (tokenOf constructorName)) None None []
                            (stmts n) opFuncDcl (symtab n) (Some fnSym) None),
                None)
    end
  else Done (root, None).

(** A visitor of [walk]: given the root as it stands and a node, it
    hands back the root after its updates and the error it returns, or
    nil.  (The scope argument of the Go signature is not read by the
    visitor of this file and is left out.) *)
Definition Visitor := Node -> Node -> Result (Node * option error).

(** [if err := visit(root, symtab, n); err != nil { errs = append(errs, err) }] *)
Definition visitNode (visit : Visitor) (root n : Node)
  : Result (Node * list error) :=
  '(root, err) <- visit root n ;;
  Done (root, match err with Some e => [e] | None => [] end).

(** A walk or a visit of the nodes of a list, one after the other, the
    root being handed on and the errors appended. *)
Fixpoint eachNode (f : Node -> Node -> Result (Node * list error))
         (root : Node) (ns : list Node) : Result (Node * list error) :=
  match ns with
  | [] => Done (root, [])
  | x :: rest =>
      '(root, a) <- f root x ;;
      '(root, b) <- eachNode f root rest ;;
      Done (root, a ++ b)
  end.

(** [if c != nil { errs = append(errs, walk(root, symtab, c, visit)...) }] *)
Definition optNode (f : Node -> Node -> Result (Node * list error))
           (root : Node) (c : option Node) : Result (Node * list error) :=
  match c with
  | Some x => f root x
  | None => Done (root, [])
  end.

(** [walk(root, symtab, n, visit)] for a node [n] below the root: left,
    right, the parameters and the statements are walked in this order,
    then [n] is visited.  The visits update the root and nothing below
    it, so the walk goes over the tree as it was.  (The lists of the
    model hold nodes, not nil: the tests [param != nil] and
    [stat != nil] of the loops always pass.) *)
Fixpoint walk (visit : Visitor) (root n : Node) {struct n}
  : Result (Node * list error) :=
  match n with
  | MkNode _ l r ss ps _ _ _ _ =>
      '(root, e1) <- optNode (walk visit) root l ;;
      '(root, e2) <- optNode (walk visit) root r ;;
      '(root, e3) <- eachNode (walk visit) root ps ;;
      '(root, e4) <- eachNode (walk visit) root ss ;;
      '(root, e5) <- visitNode visit root n ;;
      Done (root, e1 ++ e2 ++ e3 ++ e4 ++ e5)
  end.


(** The nodes of a tree in the order [walk] visits them. *)
Fixpoint postorder (n : Node) : list Node :=
  match n with
  | MkNode _ l r ss ps _ _ _ _ =>
      match l with Some x => postorder x | None => [] end
      ++ match r with Some x => postorder x | None => [] end
      ++ flat_map postorder ps
      ++ flat_map postorder ss
      ++ [n]
  end.

End Checker.

(** Modelled from the spec: a scope is a mapping from name to symbol
    within one lexical level, linked to an enclosing scope.  [Resolve]
    searches the current level, then each enclosing level in order;
    [Define] inserts into the current level and fails, leaving the level
    as it is, when the name already exists there. *)
Inductive Scope :=
| MkScope (symbols : list (string * Symbol Scope)) (parent : option Scope).

Definition symbols (st : Scope) : list (string * Symbol Scope) :=
  match st with MkScope syms _ => syms end.
Definition parent (st : Scope) : option Scope :=
  match st with MkScope _ p => p end.

Fixpoint lookupLevel (name : string) (syms : list (string * Symbol Scope))
  : option (Symbol Scope) :=
  match syms with
  | [] => None
  | (k, v) :: rest => if String.eqb k name then Some v
                      else lookupLevel name rest
  end.

Fixpoint ScopeResolve (st : Scope) (name : string) : option (Symbol Scope) :=
  match st with
  | MkScope syms p =>
      match lookupLevel name syms with
      | Some s => Some s
      | None => match p with
                | Some up => ScopeResolve up name
                | None => None
                end
      end
  end.

Definition ScopeDefine (st : Scope) (s : Symbol Scope) : Scope :=
  match lookupLevel (Name s) (symbols st) with
  | Some _ => st
  | None => MkScope ((Name s, s) :: symbols st) (parent st)
  end.

#[export] Instance ScopeOps : SymTabOps Scope := {
  Resolve := ScopeResolve;
  Define := ScopeDefine
}.

End Semantic.

(* ------------------------------------------------------------------ *)
(** ** The parser *)

Module Syntax.

Inductive Op := opFuncDcl | opFuncCall | opIntegerLit | opStrLit | opRoot.

(** The name classes of the parser's symbol table. *)
Inductive SymCat := symFnDecl | symIntegerLit | symStrLit.

Inductive Symbol :=
| Function (name : string) (argCount : Z) (index : Z)
| IntegerLiteralSymbol (val : Z)
| StringLiteralSymbol (val : string).

(** Parse-tree nodes.  An argument slot is nil where [parseArg] gave up. *)
Inductive Node := MkNode {
  token : option Lex.Token;
  stats : list (option Node);
  op : Op;
  sym : option Symbol
}.

(** [n.Add(stat)] *)
Definition Add (n : Node) (stat : Node) : Node :=
  MkNode (token n) (stats n ++ [Some stat]) (op n) (sym n).

(** What the parser uses and the sources do not hold: the symbol table
    ([NewSymtab], [Resolve] by name class, [Define]) and
    [strconv.ParseInt(s, 10, 64)] ([None] when it returns an error). *)
Class Env := {
  SymTab : Type;
  NewSymtab : SymTab;
  Resolve : SymTab -> SymCat -> string -> option Symbol;
  Define : SymTab -> Symbol -> SymTab;
  ParseInt : string -> option Z
}.

(** Diagnostics of the parser: [syntaxErrMsg] with the unexpected token
    and the expected kinds, and the symbol errors ([errRedeclaredMsg]). *)
Inductive SymErrMsg := errRedeclaredMsg.

Inductive error :=
| SyntaxError (file : string) (line pos : Z) (unexpected : string)
              (expected : list Lex.Kind)
| SymbolError (m : SymErrMsg) (file : string) (line pos : Z) (val : string).

Definition isSyntaxError (e : error) : bool :=
  match e with
  | SyntaxError _ _ _ _ _ => true
  | SymbolError _ _ _ _ _ => false
  end.

Inductive CrashKind :=
| IndexOutOfRange      (* p.tokens[p.pos] past the end *)
| ParseIntFailed.      (* panic(err) in parseArg *)

Section Parser.

Context {env : Env}.

Record Parser := MkParser {
  pos : nat;
  tokens : list Lex.Token;
  errs : list error;
  discard : bool;
  symtab : SymTab;
  extra : list Node
}.

Definition set_pos (p : Parser) (i : nat) : Parser :=
  MkParser i (tokens p) (errs p) (discard p) (symtab p) (extra p).
Definition set_errs (p : Parser) (es : list error) : Parser :=
  MkParser (pos p) (tokens p) es (discard p) (symtab p) (extra p).
Definition set_discard (p : Parser) (d : bool) : Parser :=
  MkParser (pos p) (tokens p) (errs p) d (symtab p) (extra p).
Definition set_symtab (p : Parser) (st : SymTab) : Parser :=
  MkParser (pos p) (tokens p) (errs p) (discard p) st (extra p).

(** A parser method runs on the parser and ends normally, by
    [panic(errUnexpectedEof)], or by another panic; the parser is the
    one the method left behind.  [NoFuel] is the loop bound of the model
    running out. *)
Inductive Outcome (A : Type) :=
| Ok (a : A) (p : Parser)
| Eof (p : Parser)
| Crash (why : CrashKind) (p : Parser)
| NoFuel.

Arguments Ok {A} a p.
Arguments Eof {A} p.
Arguments Crash {A} why p.
Arguments NoFuel {A}.

Definition M (A : Type) := Parser -> Outcome A.

Definition mret {A} (a : A) : M A := fun p => Ok a p.

Definition mbind {A B} (m : M A) (k : A -> M B) : M B :=
  fun p => match m p with
           | Ok a p' => k a p'
           | Eof p' => Eof p'
           | Crash w p' => Crash w p'
           | NoFuel => NoFuel
           end.

Declare Scope parser_scope.
Delimit Scope parser_scope with parser.
Notation "x <~ m ;; k" := (mbind m (fun x => k))
  (at level 100, m at next level, right associativity) : parser_scope.
Notation "m ;;; k" := (mbind m (fun _ => k))
  (at level 100, right associativity) : parser_scope.
Local Open Scope parser_scope.

(** [p.tokens[p.pos]] *)
Definition current : M Lex.Token :=
  fun p => match nth_error (tokens p) (pos p) with
           | Some t => Ok t p
           | None => Crash IndexOutOfRange p
           end.

(** [p.is(kinds...)]: the current token is read once per kind tried. *)
Fixpoint is_ (kinds : list Lex.Kind) : M bool :=
  match kinds with
  | [] => mret false
  | kind :: rest =>
      t <~ current ;;
      if Lex.Kind_eqb (Lex.Kind_ t) kind then mret true else is_ rest
  end.

(** [p.isNot(kinds...)] *)
Fixpoint isNot (kinds : list Lex.Kind) : M bool :=
  match kinds with
  | [] => mret true
  | k :: rest =>
      b <~ is_ [k] ;;
      if b : bool then mret false else isNot rest
  end.

(** [p.next()] *)
Definition next : M Lex.Token :=
  fun p =>
    if (length (tokens p) <=? pos p + 1)%nat then Eof p
    else match nth_error (tokens p) (pos p) with
         | Some t => Ok t (set_pos p (pos p + 1))
         | None => Crash IndexOutOfRange p
         end.

(** [p.symbolError(err, token)] *)
Definition symbolError (m : SymErrMsg) (t : Lex.Token) : M unit :=
  fun p => Ok tt (set_errs p (errs p ++ [SymbolError m (Lex.File t)
                                           (Lex.Line t) (Lex.Pos t)
                                           (Lex.Val t)])).

(** [p.syntaxError(expected...)] *)
Definition syntaxError (expected : list Lex.Kind) : M unit :=
  fun p =>
    if negb (discard p) then
      let p := set_discard p true in
      match nth_error (tokens p) (pos p) with
      | Some t =>
          Ok tt (set_errs p (errs p ++ [SyntaxError (Lex.File t) (Lex.Line t)
                                          (Lex.Pos t) (Lex.Val t) expected]))
      | None => Crash IndexOutOfRange p
      end
    else Ok tt p.

(** [p.discard = false] *)
Definition clearDiscard : M unit :=
  fun p => Ok tt (set_discard p false).

(** The loop of [p.need(k)]; every turn consumes a token, so the tokens
    left bound the turns. *)
Fixpoint needLoop (gas : nat) (k : Lex.Kind) : M Lex.Token :=
  b <~ is_ [k] ;;
  if b : bool then clearDiscard ;;; next
  else match gas with
       | O => fun _ => NoFuel
       | S gas' =>
           current ;;;            (* the argument of fmt.Printf *)
           syntaxError [k] ;;;
           next ;;;
           needLoop gas' k
       end.

(** The tokens from the current one on. *)
Definition remaining (p : Parser) : nat := length (tokens p) - pos p.

(** [p.need(k)] *)
Definition need (k : Lex.Kind) : M Lex.Token :=
  fun p => needLoop (remaining p) k p.

(** [p.match(k)] *)
Definition match_ (k : Lex.Kind) : M bool :=
  b <~ is_ [k] ;;
  if b : bool then next ;;; clearDiscard ;;; mret true
  else mret false.

(** [p.parseArg()] *)
Definition parseArg : M (option Node) :=
  t <~ current ;;
  match Lex.Kind_ t with
  | Lex.Integer =>
      arg <~ next ;;
      fun p =>
        match Resolve (symtab p) symIntegerLit (Lex.Val arg) with
        | Some s => Ok (Some (MkNode (Some arg) [] opIntegerLit (Some s))) p
        | None =>
            match ParseInt (Lex.Val arg) with
            | None => Crash ParseIntFailed p
            | Some i =>
                let s := IntegerLiteralSymbol i in
                Ok (Some (MkNode (Some arg) [] opIntegerLit (Some s)))
                   (set_symtab p (Define (symtab p) s))
            end
        end
  | Lex.String =>
      arg <~ next ;;
      fun p =>
        match Resolve (symtab p) symStrLit (Lex.Val arg) with
        | Some s => Ok (Some (MkNode (Some arg) [] opStrLit (Some s))) p
        | None =>
            let s := StringLiteralSymbol (Lex.Val arg) in
            Ok (Some (MkNode (Some arg) [] opStrLit (Some s)))
               (set_symtab p (Define (symtab p) s))
        end
  | _ =>
      syntaxError [Lex.Integer; Lex.String] ;;;
      next ;;;
      mret None
  end.

(** [for p.match(lex.Comma) { n = append(n, p.parseArg()) }] *)
Fixpoint parseArgsLoop (gas : nat) (n : list (option Node))
  : M (list (option Node)) :=
  b <~ match_ Lex.Comma ;;
  if b : bool then
    match gas with
    | O => fun _ => NoFuel
    | S gas' =>
        a <~ parseArg ;;
        parseArgsLoop gas' (n ++ [a])
    end
  else mret n.

(** [p.parseArgs()] *)
Definition parseArgs : M (list (option Node)) :=
  need Lex.LParen ;;;
  b <~ isNot [Lex.EOF; Lex.RParen] ;;
  n <~ (if b : bool then
          a <~ parseArg ;;
          fun p => parseArgsLoop (remaining p) [a] p
        else mret []) ;;
  need Lex.RParen ;;;
  mret n.

(** [p.fnCallNode(token, args)] *)
Definition fnCallNode (t : Lex.Token) (a : list (option Node)) : M Node :=
  fun p => Ok (MkNode (Some t) a opFuncCall
                      (Resolve (symtab p) symFnDecl (Lex.Val t))) p.

(** [p.fnCall()] *)
Definition fnCall : M Node :=
  t <~ need Lex.Identifier ;;
  a <~ parseArgs ;;
  fnCallNode t a.

(** [p.fnDclNode(token, fnCalls)] *)
Definition fnDclNode (t : Lex.Token) (fnCalls : list (option Node)) : M Node :=
  fun p =>
    match Resolve (symtab p) symFnDecl (Lex.Val t) with
    | Some s =>
        (symbolError errRedeclaredMsg t ;;;
         mret (MkNode (Some t) fnCalls opFuncDcl (Some s))) p
    | None =>
        let s := Function (Lex.Val t) 0 0 in
        Ok (MkNode (Some t) fnCalls opFuncDcl (Some s))
           (set_symtab p (Define (symtab p) s))
    end.

(** The body loop of [fnDeclaration]. *)
Fixpoint fnCallsLoop (gas : nat) (fnCalls : list (option Node))
  : M (list (option Node)) :=
  b <~ isNot [Lex.RBrace] ;;
  if b : bool then
    match gas with
    | O => fun _ => NoFuel
    | S gas' =>
        c <~ is_ [Lex.Identifier] ;;
        if c : bool then
          call <~ fnCall ;;
          fnCallsLoop gas' (fnCalls ++ [Some call])
        else
          syntaxError [Lex.Identifier; Lex.RBrace] ;;;
          next ;;;
          fnCallsLoop gas' fnCalls
    end
  else mret fnCalls.

(** [p.fnDeclaration()] *)
Definition fnDeclaration : M Node :=
  need Lex.Fn ;;;
  name <~ need Lex.Identifier ;;
  need Lex.LParen ;;;
  need Lex.RParen ;;;
  need Lex.LBrace ;;;
  fnCalls <~ (fun p => fnCallsLoop (remaining p) [] p) ;;
  need Lex.RBrace ;;;
  fnDclNode name fnCalls.

(** The loop of [Parse] over the stream.  [root] is the local of that
    name; the loop hands back the root as it stands when the loop is
    left, whichever way. *)
Fixpoint parseLoop (gas : nat) (root : Node) (p : Parser)
  : Node * Outcome unit :=
  match isNot [Lex.EOF] p with
  | Ok true p =>
      match gas with
      | O => (root, NoFuel)
      | S gas' =>
          match is_ [Lex.Fn] p with
          | Ok true p =>
              match fnDeclaration p with
              | Ok d p => parseLoop gas' (Add root d) p
              | Eof p => (root, Eof p)
              | Crash w p => (root, Crash w p)
              | NoFuel => (root, NoFuel)
              end
          | Ok false p =>
              match (syntaxError [Lex.Fn; Lex.EOF] ;;; next) p with
              | Ok _ p => parseLoop gas' root p
              | Eof p => (root, Eof p)
              | Crash w p => (root, Crash w p)
              | NoFuel => (root, NoFuel)
              end
          | Eof p => (root, Eof p)
          | Crash w p => (root, Crash w p)
          | NoFuel => (root, NoFuel)
          end
      end
  | Ok false p => (root, Ok tt p)
  | Eof p => (root, Eof p)
  | Crash w p => (root, Crash w p)
  | NoFuel => (root, NoFuel)
  end.

(** The body of [Parse] up to its [return]: the root is created, the
    extra nodes are added, the stream is consumed and the end of the
    stream is required. *)
Definition parseBody (p : Parser) : Node * Outcome unit :=
  let root := fold_left Add (extra p) (MkNode None [] opRoot None) in
  match parseLoop (remaining p) root p with
  | (root, Ok _ p) => (root, (need Lex.EOF ;;; mret tt) p)
  | r => r
  end.

(** What a caller of [Parse] gets. *)
Inductive Parsed :=
| Returned (errs : list error) (root : Node)
| Panicked (why : CrashKind)
| Exhausted.

(** [p.Parse()] with its deferred [onUnexpectedEof]: a normal return
    gives [p.errs] and the root; [errUnexpectedEof] is recovered, the
    results being [p.errs] and the root built so far; any other panic is
    raised again. *)
Definition Parse (p : Parser) : Parsed :=
  match parseBody p with
  | (root, Ok _ p') => Returned (errs p') root
  | (root, Eof p') => Returned (errs p') root
  | (_, Crash w _) => Panicked w
  | (_, NoFuel) => Exhausted
  end.

(** [NewParser(tokens, extra)] *)
Definition NewParser (toks : list Lex.Token) (ex : list Node) : Parser :=
  let st := fold_left (fun st n => match sym n with
                                   | Some s => Define st s
                                   | None => st
                                   end) ex NewSymtab in
  MkParser 0 toks [] false st ex.

End Parser.

Arguments Ok {env A} a p.
Arguments Eof {env A} p.
Arguments Crash {env A} why p.
Arguments NoFuel {env A}.

(** Modelled from the spec: one name-keyed table for every name class;
    the literal pools intern by literal text, so that an identical
    literal reuses one symbol.  Integer literals are decimal and fit 64
    bits signed. *)
Definition SymCat_eqb (a b : SymCat) : bool :=
  match a, b with
  | symFnDecl, symFnDecl | symIntegerLit, symIntegerLit
  | symStrLit, symStrLit => true
  | _, _ => false
  end.

Definition symKey (s : Symbol) : SymCat * string :=
  match s with
  | Function n _ _ => (symFnDecl, n)
  | IntegerLiteralSymbol v =>
      (symIntegerLit, DecimalString.NilEmpty.string_of_int (Z.to_int v))
  | StringLiteralSymbol v => (symStrLit, v)
  end.

Definition Table := list (SymCat * string * Symbol).

Fixpoint tableResolve (t : Table) (c : SymCat) (name : string)
  : option Symbol :=
  match t with
  | [] => None
  | (c', k, s) :: rest =>
      if SymCat_eqb c' c && String.eqb k name then Some s
      else tableResolve rest c name
  end.

Definition tableDefine (t : Table) (s : Symbol) : Table :=
  let '(c, k) := symKey s in
  match tableResolve t c k with
  | Some _ => t
  | None => (c, k, s) :: t
  end.

Definition parseInt64 (s : string) : option Z :=
  match DecimalString.NilEmpty.int_of_string s with
  | Some d =>
      let z := Z.of_int d in
      if ((- 2 ^ 63 <=? z) && (z <? 2 ^ 63))%Z then Some z else None
  | None => None
  end.

#[export] Instance TableEnv : Env := {
  SymTab := Table;
  NewSymtab := [];
  Resolve := tableResolve;
  Define := tableDefine;
  ParseInt := parseInt64
}.

End Syntax.

(* ------------------------------------------------------------------ *)
(** ** The token loop of [main.go] *)

Module Driver.

(** How the loop over [lexer.NextToken()] ends: with the tokens kept
    for the parser, or by [os.Exit(1)] on an error token.  [Spinning]
    is the bound of the model on a lexer that never ends its stream. *)
Inductive Lexed :=
| Tokens (tokens : list Lex.Token)
| Exit (token : Lex.Token)
| Spinning.

(** The loop of [main]; [NextToken i] is what the [i]-th call of
    [lexer.NextToken()] gives, the first call being call 0. *)
Fixpoint lexLoop (fuel : nat) (NextToken : nat -> Lex.Token) (i : nat)
         (tokens : list Lex.Token) : Lexed :=
  match fuel with
  | O => Spinning
  | S fuel' =>
      let token := NextToken i in
      match Lex.Kind_ token with
      | Lex.EOL | Lex.Space | Lex.Comment =>
          lexLoop fuel' NextToken (S i) tokens
      | Lex.Err => Exit token
      | Lex.EOF => Tokens (tokens ++ [token])
      | _ => lexLoop fuel' NextToken (S i) (tokens ++ [token])
      end
  end.

(** A token the loop drops. *)
Definition isBlank (t : Lex.Token) : bool :=
  match Lex.Kind_ t with
  | Lex.EOL | Lex.Space | Lex.Comment => true
  | _ => false
  end.

Definition isEOF (t : Lex.Token) : bool :=
  Lex.Kind_eqb (Lex.Kind_ t) Lex.EOF.

End Driver.

(* ------------------------------------------------------------------ *)
(** ** The opcode lists of [x64.go] *)

Module X64.

Local Open Scope Z_scope.

(** The unsigned integer types, as values modulo their width. *)
Definition uint8 (z : Z) : Z := z mod 2 ^ 8.
Definition uint32 (z : Z) : Z := z mod 2 ^ 32.
Definition uint64 (z : Z) : Z := z mod 2 ^ 64.

(** The general purpose registers. *)
Definition Rax : Z := 0.
Definition Rcx : Z := 1.
Definition Rdx : Z := 2.
Definition Rbx : Z := 3.
Definition Rsp : Z := 4.
Definition Rbp : Z := 5.
Definition Rsi : Z := 6.
Definition Rdi : Z := 7.
Definition R8 : Z := 8.
Definition R9 : Z := 9.
Definition R10 : Z := 10.
Definition R11 : Z := 11.
Definition R12 : Z := 12.
Definition R13 : Z := 13.
Definition R14 : Z := 14.
Definition R15 : Z := 15.

(** A call either returns or panics with a message. *)
Inductive Run (A : Type) :=
| Ran (a : A)
| Panicked (message : string).

Arguments Ran {A} a.
Arguments Panicked {A} message.

Definition andThen {A B} (m : Run A) (k : A -> Run B) : Run B :=
  match m with
  | Ran a => k a
  | Panicked e => Panicked e
  end.

(** The two implementations of the interface [Opcode]; a byte is a [Z]
    below 256, an [Rva] a pointer to a 64-bit value or nil. *)
Inductive Opcode :=
| SimpleOpcode (bytes : list Z)
| RvaOpcode (buf : list Z) (Rva : option Z).

Definition Len (op : Opcode) : Z :=
  match op with
  | SimpleOpcode bytes => uint8 (Z.of_nat (length bytes))
  | RvaOpcode buf _ => uint8 (uint8 (Z.of_nat (length buf)) + 8)
  end.

Definition Bytes (op : Opcode) : Run (list Z) :=
  match op with
  | SimpleOpcode bytes => Ran bytes
  | RvaOpcode _ _ => Panicked "Not implemented"
  end.

Record OpcodeList := MkOpcodeList {
  Ops : list Opcode;
  rva : Z
}.

Definition NewOpcodeList (r : Z) : OpcodeList := MkOpcodeList [] r.

Definition Rva (ol : OpcodeList) : Z := rva ol.

Definition Add (ol : OpcodeList) (op : Opcode) : OpcodeList :=
  MkOpcodeList (Ops ol ++ [op]) (uint64 (rva ol + uint64 (Len op))).

(** The loop of [ToBuffer] over the opcodes, [buf] being the buffer. *)
Fixpoint writeAll (ops : list Opcode) (buf : list Z) : Run (list Z) :=
  match ops with
  | [] => Ran buf
  | op :: rest => andThen (Bytes op) (fun b => writeAll rest (buf ++ b))
  end.

Definition ToBuffer (ol : OpcodeList) : Run (list Z) :=
  writeAll (Ops ol) [].

(** [n] bytes of [z], the least significant first
    ([binary.LittleEndian]). *)
Fixpoint littleEndian (n : nat) (z : Z) : list Z :=
  match n with
  | O => []
  | S n' => z mod 256 :: littleEndian n' (z / 256)
  end.

(** What the code hands to [binary.Write]: a slice of bytes, a [uint32],
    an [int32], or an [Rva]. *)
Inductive Data :=
| Uint8s (bytes : list Z)
| Uint32 (v : Z)
| Int32 (v : Z)
| RvaPointer (p : option Z).

(** [binary.Write(&buf, binary.LittleEndian, data)]: the bytes appended,
    or the failure.  A nil [Rva] is of no encodable type: the call fails,
    by the error that [Write] turns into a panic or by a panic of its
    own, with a message that depends on the release of Go; the message
    here is the one of the error. *)
Definition binaryWrite (data : Data) : Run (list Z) :=
  match data with
  | Uint8s bytes => Ran bytes
  | Uint32 v => Ran (littleEndian 4 v)
  | Int32 v => Ran (littleEndian 4 (v mod 2 ^ 32))
  | RvaPointer (Some v) => Ran (littleEndian 8 v)
  | RvaPointer None => Panicked "binary.Write: invalid type x64.Rva"
  end.

Record opcodeBuilder := MkBuilder { buf : list Z }.

(** [ob.Write(data)] *)
Definition Write (ob : opcodeBuilder) (data : Data) : Run opcodeBuilder :=
  andThen (binaryWrite data) (fun b => Ran (MkBuilder (buf ob ++ b))).

(** [ob.Bytes(bytes...)] *)
Definition BuilderBytes (ob : opcodeBuilder) (bytes : list Z)
  : Run opcodeBuilder :=
  Write ob (Uint8s bytes).

(** [op(opCode)] *)
Definition op (opCode : Z) : Run opcodeBuilder :=
  BuilderBytes (MkBuilder []) [opCode].

(** [ob.Build()] *)
Definition Build (ob : opcodeBuilder) : Opcode := SimpleOpcode (buf ob).

(** The instructions; each one adds an opcode to the list. *)
Definition CALL (ol : OpcodeList) (r : Z) : Run OpcodeList :=
  andThen (op 255) (fun ob =>
  andThen (BuilderBytes ob [20; 37]) (fun ob =>
  andThen (Write ob (Uint32 (uint32 r))) (fun ob =>
  Ran (Add ol (Build ob))))).

Definition CALLI (ol : OpcodeList) (r : option Z) : Run OpcodeList :=
  andThen (op 255) (fun ob =>
  andThen (BuilderBytes ob [20; 37]) (fun ob =>
  andThen (Write ob (RvaPointer r)) (fun ob =>
  Ran (Add ol (Build ob))))).

Definition MOV (ol : OpcodeList) (srcReg destReg : Z) : Run OpcodeList :=
  let mod_ := 192 in
  let mod_ := Z.lor mod_ (uint8 (Z.shiftl srcReg 3)) in
  let mod_ := Z.lor mod_ destReg in
  andThen (op 139) (fun ob =>
  andThen (BuilderBytes ob [mod_]) (fun ob =>
  Ran (Add ol (Build ob)))).

Definition MOVM (ol : OpcodeList) (srcReg destReg : Z) : Run OpcodeList :=
  Panicked "MOVM not implemented".

(** [fmt.Sprintf] of an integer under the verb [%x]. *)
Definition hex (v : Z) : string :=
  HexadecimalString.NilZero.string_of_int (Z.to_hex_int v).

Definition MOVI (ol : OpcodeList) (destReg val : Z) : Run OpcodeList :=
  if destReg =? Rcx then
    andThen (op 185) (fun ob =>
    andThen (Write ob (Int32 val)) (fun ob =>
    Ran (Add ol (Build ob))))
  else Panicked (String.append "MOVI: "
                (String.append (hex destReg)
                (String.append ", "
                (String.append (hex val)
                               " - register not implemented yet.")))).

Definition PUSH (ol : OpcodeList) (srcReg : Z) : Run OpcodeList :=
  andThen (op (uint8 (80 + srcReg))) (fun ob => Ran (Add ol (Build ob))).

Definition PUSHI (ol : OpcodeList) (val : Z) : Run OpcodeList :=
  let code := if val <=? 255 then 106 else 104 in
  andThen (op code) (fun ob =>
  andThen (Write ob (Uint32 val)) (fun ob =>
  Ran (Add ol (Build ob)))).

Definition POP (ol : OpcodeList) (destReg : Z) : Run OpcodeList :=
  andThen (op (uint8 (88 + destReg))) (fun ob => Ran (Add ol (Build ob))).

Definition RET (ol : OpcodeList) : Run OpcodeList :=
  andThen (op 195) (fun ob => Ran (Add ol (Build ob))).

Definition SUB (ol : OpcodeList) (reg n : Z) : Run OpcodeList :=
  Ran (Add ol (SimpleOpcode [])).

(** A call of one of the instructions with its arguments, and a
    sequence of calls on one list. *)
Inductive Call :=
| callCALL (r : Z)
| callCALLI (r : option Z)
| callMOV (srcReg destReg : Z)
| callMOVM (srcReg destReg : Z)
| callMOVI (destReg val : Z)
| callPUSH (srcReg : Z)
| callPUSHI (val : Z)
| callPOP (destReg : Z)
| callRET
| callSUB (reg n : Z).

Definition perform (ol : OpcodeList) (c : Call) : Run OpcodeList :=
  match c with
  | callCALL r => CALL ol r
  | callCALLI r => CALLI ol r
  | callMOV s d => MOV ol s d
  | callMOVM s d => MOVM ol s d
  | callMOVI d v => MOVI ol d v
  | callPUSH s => PUSH ol s
  | callPUSHI v => PUSHI ol v
  | callPOP d => POP ol d
  | callRET => RET ol
  | callSUB r n => SUB ol r n
  end.

Fixpoint performAll (ol : OpcodeList) (cs : list Call) : Run OpcodeList :=
  match cs with
  | [] => Ran ol
  | c :: rest => andThen (perform ol c) (fun ol' => performAll ol' rest)
  end.

(** The value of little-endian bytes. *)
Fixpoint value (bytes : list Z) : Z :=
  match bytes with
  | [] => 0
  | b :: rest => b + 256 * value rest
  end.

(** An opcode whose bytes can be asked for, and the bytes an opcode
    holds. *)
Definition isSimple (o : Opcode) : bool :=
  match o with
  | SimpleOpcode _ => true
  | RvaOpcode _ _ => false
  end.

Definition bytesOf (o : Opcode) : list Z :=
  match o with
  | SimpleOpcode bytes => bytes
  | RvaOpcode b _ => b
  end.

(** The address of a list started at [r0] is [r0] plus the number of
    bytes of its buffer, modulo 64 bits. *)
Definition tracks (r0 : Z) (ol : OpcodeList) : Prop :=
  exists bytes,
    ToBuffer ol = Ran bytes
    /\ Rva ol = uint64 (r0 + Z.of_nat (length bytes)).

(** A function prologue and epilogue around a call. *)
Definition frame : list Call :=
  [callPUSH Rbp; callMOV Rsp Rbp; callSUB Rsp 32; callPUSHI 72;
   callMOVI Rcx (-1); callCALL 4096; callPOP Rbp; callRET].

(** The list the frame gives when laid at the address 4096. *)
Definition frameAt4096 : OpcodeList :=
  MkOpcodeList
    (map SimpleOpcode
         [[85]; [139; 229]; []; [106; 72; 0; 0; 0];
          [185; 255; 255; 255; 255]; [255; 20; 37; 0; 16; 0; 0];
          [93]; [195]])
    4118.

(** The ModRM byte [MOV] computes. *)
Definition modrm (srcReg destReg : Z) : Z :=
  Z.lor (Z.lor 192 (uint8 (Z.shiftl srcReg 3))) destReg.

(** The value of a 32-bit two's complement pattern. *)
Definition signed32 (z : Z) : Z :=
  if z <? 2 ^ 31 then z else z - 2 ^ 32.

End X64.

(* ------------------------------------------------------------------ *)
(** ** Concrete programs used below *)

Module Examples.

Import Semantic.

Definition tok (v : string) : Lex.Token :=
  Lex.MkToken Lex.Identifier v "prog.clara" 1 1.

Definition stringType : Type_ Scope := MkType String NoData.
Definition arrayOfInt : Type_ Scope := MkType Array (ArrayData intType).

Definition empty : Scope := MkScope [] None.

Definition fnType (name : string) (arity : Z) (variadic : bool)
           (r : Type_ Scope) : Type_ Scope :=
  MkType Function (FunctionData (MkFunctionType name arity variadic false r empty)).

(** A scope that declares [f(_, _) : String], a string [s], an array of
    integers [xs], an integer [i] and a boolean [b]. *)
Definition globals : Scope :=
  MkScope [("f", MkSymbol "f" 0 (fnType "f" 2 false stringType));
           ("s", MkSymbol "s" 0 stringType);
           ("xs", MkSymbol "xs" 8 arrayOfInt);
           ("i", MkSymbol "i" 16 intType);
           ("b", MkSymbol "b" 24 boolType)] None.

Definition leaf (o : Op) (v : string) (s : option (Symbol Scope))
  : Node Scope :=
  MkNode (Some (tok v)) None None [] [] o globals s None.

(** A literal with its interned symbol. *)
Definition lit (v : string) (t : Type_ Scope) : Node Scope :=
  leaf opLit v (Some (MkSymbol v 0 t)).

Definition ident (v : string) : Node Scope := leaf opIdentifier v None.

Definition binary (o : Op) (v : string) (l r : Node Scope) : Node Scope :=
  MkNode (Some (tok v)) (Some l) (Some r) [] [] o globals None None.

Definition call (v : string) (a : list (Node Scope)) : Node Scope :=
  MkNode (Some (tok v)) None None a [] opFuncCall globals None None.

(** [f(undefinedName)]: one argument for two parameters. *)
Definition shortCall : Node Scope := call "f" [ident "undefinedName"].

(** [f(1, 2, undefinedName)]: three arguments for two parameters. *)
Definition longCall : Node Scope :=
  call "f" [lit "1" intType; lit "2" intType; ident "undefinedName"].

(** [if 1 { undefinedName } ] *)
Definition ifOnInteger : Node Scope :=
  MkNode (Some (tok "if")) (Some (lit "1" intType)) None
         [ident "undefinedName"] [] opIf globals None None.

(** [b * "s"]: neither operand is accepted by [*]. *)
Definition boolTimesString : Node Scope :=
  binary opMul "*" (ident "b") (lit "s" stringType).

(** [1 + "s"]: each operand is accepted by [+], the kinds differ. *)
Definition intPlusString : Node Scope :=
  binary opAdd "+" (lit "1" intType) (lit "s" stringType).

(** [xs[i]], [s[i]] and [xs[b]] *)
Definition indexArray : Node Scope :=
  binary opArray "[" (ident "xs") (ident "i").
Definition indexString : Node Scope :=
  binary opArray "[" (ident "s") (ident "i").
Definition indexByBool : Node Scope :=
  binary opArray "[" (ident "xs") (ident "b").

(** ["abc".length], [f(1, 2).length] and [("a" + "b").length] *)
Definition dot (l r : Node Scope) : Node Scope :=
  MkNode (Some (tok ".")) (Some l) (Some r) [] [] opDot globals None None.
Definition lengthOfLiteral : Node Scope :=
  dot (lit "abc" stringType) (ident "length").
Definition lengthOfCall : Node Scope :=
  dot (call "f" [lit "1" intType; lit "2" intType]) (ident "length").
Definition lengthOfSum : Node Scope :=
  dot (binary opAdd "+" (lit "a" stringType) (lit "b" stringType))
      (ident "length").

(** [(1 + "s").f(2)] and the direct call [f(1 + "s", 2)];
    [undefinedName.f(2)] and [f(undefinedName, 2)]. *)
Definition methodCall : Node Scope :=
  dot intPlusString (call "f" [lit "2" intType]).
Definition directCall : Node Scope :=
  call "f" [intPlusString; lit "2" intType].
Definition methodCallOnUndefined : Node Scope :=
  dot (ident "undefinedName") (call "f" [lit "2" intType]).
Definition directCallOnUndefined : Node Scope :=
  call "f" [ident "undefinedName"; lit "2" intType].

(** The struct declarations [point { x, y }] and [Point { x, y }] and a
    root to synthesize into. *)
Definition pointType : Type_ Scope :=
  MkType Struct (StructData (MkStructType "point"
    [(MkSymbol "x" 0 intType, 0%Z); (MkSymbol "y" 0 intType, 8%Z)])).

Definition structDecl (name : string) : Node Scope :=
  MkNode (Some (tok name)) None None
         [leaf opIdentifier "x" (Some (MkSymbol "x" 0 intType));
          leaf opIdentifier "y" (Some (MkSymbol "y" 0 intType))]
         [] opStruct empty (Some (MkSymbol name 0 pointType)) None.

Definition root : Node Scope :=
  MkNode None None None [structDecl "point"] [] opRoot globals None None.

End Examples.

(** Token streams for the parser. *)
Module ParserExamples.

Import Syntax.

Definition tk (k : Lex.Kind) (v : string) : Lex.Token :=
  Lex.MkToken k v "prog.clara" 1 1.

(** [1] and the end of the stream: a stray literal at top level. *)
Definition strayLiteral : list Lex.Token :=
  [tk Lex.Integer "1"; tk Lex.EOF ""].

(** [1 2 fn] and the end of the stream. *)
Definition twoStrays : list Lex.Token :=
  [tk Lex.Integer "1"; tk Lex.Integer "2"; tk Lex.Fn "fn"; tk Lex.EOF ""].


End ParserExamples.

(** Further trees, token streams and a lexer. *)
Module MoreExamples.

Import Semantic.

(** [fn main() { undefinedName  f(undefinedName) }] *)
Definition mainDecl : Node Scope :=
  MkNode (Some (Examples.tok "main")) None None
         [Examples.ident "undefinedName"; Examples.shortCall] []
         opFuncDcl Examples.globals
         (Some (MkSymbol "main" 0
                  (Examples.fnType "main" 0 false nothingType)))
         None.

(** Two end markers: the first one stands before the last token. *)
Definition twoEnds : list Lex.Token :=
  [ParserExamples.tk Lex.EOF ""; ParserExamples.tk Lex.EOF ""].

(** A lexer that gives a space, [1], a comment and the end marker, and
    the end marker ever after. *)
Definition lexer (i : nat) : Lex.Token :=
  nth i [ParserExamples.tk Lex.Space " ";
         ParserExamples.tk Lex.Integer "1";
         ParserExamples.tk Lex.Comment "// one"]
      (ParserExamples.tk Lex.EOF "").

End MoreExamples.

(* ------------------------------------------------------------------ *)
(** ** Statements under test *)

Module Stated.

Import Semantic.

(** The errors and the node of a finished check. *)
Definition errorsOf {S} (r : Result (Node S * list (error S)))
  : list (error S) :=
  match r with
  | Done (_, es) => es
  | _ => []
  end.

Definition nodeOf {S} (r : Result (Node S * list (error S)))
  : option (Node S) :=
  match r with
  | Done (n, _) => Some n
  | _ => None
  end.

(** [r'] agrees with [r] unless [r] ran out of fuel. *)
Definition approx {A} (r r' : Result A) : Prop :=
  r = OutOfFuel \/ r' = r.

Section Readings.

Context {SymTab : Type} {ops : SymTabOps SymTab}.

Implicit Types (n : Node SymTab) (fn : option (FunctionType SymTab)).

(** The errors of every statement of [n], checked on its own, are among
    the errors of the check of [n]. *)
Definition statementsChecked (fuel : nat) fn n : Prop :=
  forall a e, In a (stmts n) ->
              In e (errorsOf (typeCheck fuel fn a)) ->
              In e (errorsOf (typeCheck (S fuel) fn n)).

(** The number of errors of a given format among the errors. *)
Definition countMsg (m : ErrMsg) (es : list (error SymTab)) : nat :=
  length (filter (fun e => if ErrMsg_eq_dec (msg e) m then true else false)
                 es).

(** [chk'] agrees with [chk] wherever [chk] does not run out of fuel. *)
Definition refines (chk chk' : Node SymTab ->
                               Result (Node SymTab * list (error SymTab)))
  : Prop :=
  forall x, approx (chk x) (chk' x).

(** The sizes of a child slot and of a list of nodes. *)
Definition osize (c : option (Node SymTab)) : nat :=
  match c with
  | Some x => size x
  | None => 0
  end.

Definition lsize (ns : list (Node SymTab)) : nat :=
  list_sum (map (@size SymTab) ns).

(** A result that is there, and whose node is no larger than [k]. *)
Definition bounded (k : nat)
           (r : Result (Node SymTab * list (error SymTab))) : Prop :=
  r <> OutOfFuel /\ forall n' e, r = Done (n', e) -> size n' <= k.

(** A check that ends on [x] and does not make it larger. *)
Definition settled (chk : Node SymTab ->
                          Result (Node SymTab * list (error SymTab)))
           (x : Node SymTab) : Prop :=
  bounded (size x) (chk x).

End Readings.

Section ParserReadings.

Import Syntax.

Context {env : Env}.

(** [es'] is [es] with further errors appended. *)
Definition extends (es es' : list error) : Prop :=
  exists more, es' = es ++ more.

(** [p'] is a later state of the parse that was in [p]: the same token
    stream, a position no earlier, the errors of [p] kept at the front. *)
Definition later (p p' : Parser) : Prop :=
  tokens p' = tokens p /\ pos p <= pos p' /\ extends (errs p) (errs p').

(** [next()] would panic in [p]: there is no token after the current
    one. *)
Definition outOfTokens (p : Parser) : Prop :=
  length (tokens p) <= pos p + 1.

(** A parser method only moves forward, and ends by
    [errUnexpectedEof] only where [next()] panics. *)
Definition steady {A} (m : M A) : Prop :=
  forall p,
    match m p with
    | Ok _ p' => later p p'
    | Eof p' => later p p' /\ outOfTokens p'
    | Crash _ p' => later p p'
    | NoFuel => True
    end.

(** The same for an outcome reached from [p]. *)
Definition steadyFrom {A} (p : Parser) (o : Outcome A) : Prop :=
  match o with
  | Ok _ p' => later p p'
  | Eof p' => later p p' /\ outOfTokens p'
  | Crash _ p' => later p p'
  | NoFuel => True
  end.

(** A parser method that keeps the position on a token of the stream,
    and so never reads past its end. *)
Definition inRange (p : Parser) : Prop := pos p < length (tokens p).

Definition ranged {A} (m : M A) : Prop :=
  forall p, inRange p ->
    match m p with
    | Ok _ p' => inRange p'
    | Eof p' => inRange p'
    | Crash w _ => w = ParseIntFailed
    | NoFuel => True
    end.

(** A parser method that, when it returns, has consumed a token. *)
Definition consuming {A} (m : M A) : Prop :=
  forall p a p', m p = Ok a p' -> pos p < pos p'.

(** A parser method whose loops never outrun their bound. *)
Definition fuelled {A} (m : M A) : Prop :=
  forall p, m p <> NoFuel.

(** The diagnostic [need(k)] records in [p]: none in discard mode or on
    a matching token, else one for the current token. *)
Definition diagnostic (k : Lex.Kind) (p : Parser) : list error :=
  if discard p then []
  else match nth_error (tokens p) (pos p) with
       | Some t =>
           if Lex.Kind_eqb (Lex.Kind_ t) k then []
           else [SyntaxError (Lex.File t) (Lex.Line t) (Lex.Pos t)
                             (Lex.Val t) [k]]
       | None => []
       end.

(** The tokens of [p] from position [i] up to position [j], excluded,
    are not of kind [k]. *)
Definition skipped (k : Lex.Kind) (p : Parser) (i j : nat) : Prop :=
  forall x t, i <= x < j -> nth_error (tokens p) x = Some t ->
              Lex.Kind_eqb (Lex.Kind_ t) k = false.

(** What [need(k)] does from [p]: it returns the first token of kind
    [k] at or after the current one, having stepped over the tokens
    before it, with discard mode off; or it runs out of tokens on the
    way; in both cases it has recorded [diagnostic k p] and nothing
    else.  It crashes only when there is no current token. *)
Definition needSpec (k : Lex.Kind) (p : Parser) (o : Outcome Lex.Token)
  : Prop :=
  match o with
  | Ok t p' =>
      Lex.Kind_eqb (Lex.Kind_ t) k = true
      /\ nth_error (tokens p) (pos p' - 1) = Some t
      /\ pos p < pos p'
      /\ skipped k p (pos p) (pos p' - 1)
      /\ discard p' = false
      /\ errs p' = errs p ++ diagnostic k p
  | Eof p' =>
      skipped k p (pos p) (pos p')
      /\ outOfTokens p'
      /\ errs p' = errs p ++ diagnostic k p
  | Crash _ _ => length (tokens p) <= pos p
  | NoFuel => False
  end.

End ParserReadings.

End Stated.

(** Further statements, on the walk and on the driver. *)
Module StatedMore.

(** A stream ended by its end marker: the only token of kind [EOF] is
    the last one. *)
Definition terminated (tokens : list Lex.Token) : Prop :=
  forall i t, nth_error tokens i = Some t ->
              Lex.Kind_ t = Lex.EOF -> S i = length tokens.

(** A token the loop of [main] keeps before the end marker. *)
Definition kept (t : Lex.Token) : Prop :=
  Lex.Kind_ t <> Lex.EOF /\ Lex.Kind_ t <> Lex.Err
  /\ Driver.isBlank t = false.

Section Parses.

Context {env : Syntax.Env}.

(** [Parse] came back through the recovered panic of [next()]. *)
Definition unwound (p : Syntax.Parser) : Prop :=
  exists root p',
    Syntax.parseBody p = (root, Syntax.Eof p')
    /\ Syntax.Parse p = Syntax.Returned (Syntax.errs p') root.

End Parses.

Import Semantic.

Section Walks.

Context {SymTab : Type} {ops : SymTabOps SymTab}.







(** What a finished check says of its node and errors. *)
Definition yields (P : Node SymTab -> list (error SymTab) -> Prop)
           (r : Result (Node SymTab * list (error SymTab))) : Prop :=
  forall n' es, r = Done (n', es) -> P n' es.

(** [n'] has the operator, token and scope of [n] and as many statements
    and parameters, or is the call that the dot node [n] was rewritten
    into. *)
Definition sameShape (n n' : Node SymTab) : Prop :=
  (op n' = op n /\ token n' = token n /\ symtab n' = symtab n
   /\ length (stmts n') = length (stmts n)
   /\ length (params n') = length (params n))
  \/ (op n = opDot /\ op n' = opFuncCall).

(** The operators whose case starts with the check of the left
    operand. *)
Definition leftFirst (o : Op) : bool :=
  match o with
  | opIf | opElseIf | opReturn | opAnd | opOr | opAdd | opMul | opMin
  | opDiv | opNot | opGt | opLt | opEq | opDot | opArray => true
  | _ => false
  end.

End Walks.

End StatedMore.

(* ------------------------------------------------------------------ *)
(** ** Properties of the type checker *)

Module SemanticProofs.

Import Semantic Stated.

Section Facts.

Context {SymTab : Type} {ops : SymTabOps SymTab}.

Local Abbreviation Node := (Node SymTab).
Local Abbreviation error := (error SymTab).

Implicit Types (n l r : Node) (fn : option (FunctionType SymTab))
         (fuel : nat).

Lemma typeCheck_S fuel fn n :
  typeCheck (S fuel) fn n = typeCheckBody (typeCheck fuel fn) fn n.
Proof. reflexivity. Qed.

(** C1 (amended).  A call whose callee resolves to a function reports
    exactly the too-few error when the arguments are fewer than the
    arity, exactly the too-many error when they are more and the callee
    is not variadic, and in both cases leaves the node as it was: no
    argument is checked.  The arguments are checked only when the
    argument count is acceptable; the call then takes the callee's
    symbol and return type. *)
Theorem call_arity fuel fn n tok s f
  (Hop : op n = opFuncCall)
  (Htok : token n = Some tok)
  (Hres : Resolve (symtab n) (Lex.Val tok) = Some s)
  (Hfun : Is (SymType s) Function = true)
  (Hcast : AsFunction (SymType s) = Done f) :
  ((Z.of_nat (length (stmts n)) < ArgCount f)%Z ->
     typeCheck (S fuel) fn n
     = Done (n, [semanticError errTooFewArgsMsg tok []]))
  /\ ((ArgCount f < Z.of_nat (length (stmts n)))%Z ->
      isVariadic f = false ->
     typeCheck (S fuel) fn n
     = Done (n, [semanticError errTooManyArgsMsg tok []]))
  /\ ((ArgCount f <= Z.of_nat (length (stmts n)))%Z ->
      (Z.of_nat (length (stmts n)) <= ArgCount f)%Z \/ isVariadic f = true ->
     typeCheck (S fuel) fn n
     = bind (checkAll (typeCheck fuel fn) (stmts n))
            (fun '(ss, e) =>
               finish (set_typ (set_sym (set_stmts n ss) (Some s))
                               (Some (ret f))) e)).
Proof.
  rewrite typeCheck_S; unfold typeCheckBody, checkCall.
  rewrite Hop, Htok; cbn [deref bind]; rewrite Hres, Hfun; cbn [negb].
  rewrite Hcast; cbn [bind].
  repeat split.
  - intros Hlt. apply Z.ltb_lt in Hlt. now rewrite Hlt.
  - intros Hgt Hvar.
    assert (Hge : (Z.of_nat (length (stmts n)) <? ArgCount f)%Z = false)
      by (apply Z.ltb_ge; lia).
    rewrite Hge, Hvar.
    assert (Hgt' : (Z.of_nat (length (stmts n)) >? ArgCount f)%Z = true)
      by (apply Z.gtb_lt; lia).
    now rewrite Hgt'.
  - intros Hle Hmax.
    assert (Hge : (Z.of_nat (length (stmts n)) <? ArgCount f)%Z = false)
      by (apply Z.ltb_ge; lia).
    rewrite Hge.
    assert (Hno : (Z.of_nat (length (stmts n)) >? ArgCount f)%Z
                  && negb (isVariadic f) = false).
    { destruct Hmax as [Hmax | Hmax].
      - rewrite Z.gtb_ltb. replace (ArgCount f <? _)%Z with false; [reflexivity|].
        symmetry. apply Z.ltb_ge; lia.
      - rewrite Hmax. apply andb_false_r. }
    now rewrite Hno.
Qed.

(** Rewriting with the facts at hand and running the code on them. *)
Ltac run :=
  repeat (progress (unfold hasType, finish, printTypeInfo, checkChild;
                    cbn [bind deref negb orb andb token left right stmts
                         params op symtab sym typ set_left set_right
                         set_stmts set_typ set_sym set_params Kind Data
                         boolType intType byteType nothingType])
          || match goal with
             | H : _ = _ |- _ => rewrite H
             end).

(** C2 (amended).  When the condition of an if / else-if checks to a
    type that is not Boolean, the check ends with the condition's errors
    followed by one mismatch error; the node gets no type, and neither
    its body statements nor its chained else-if are checked: they are
    left as they were. *)
Theorem if_condition_not_boolean fuel fn n l l' e1 lt ltok
  (Hop : op n = opIf \/ op n = opElseIf)
  (Hleft : left n = Some l)
  (Hl : typeCheck fuel fn l = Done (l', e1))
  (Htyp : typ l' = Some lt)
  (Hkind : Is lt Boolean = false)
  (Htok : token l' = Some ltok) :
  exists n',
    typeCheck (S fuel) fn n
    = Done (n', e1 ++ [semanticError2 errMismatchedTypesMsg ltok
                         [AKind (Kind lt); AKind Boolean]])
    /\ left n' = Some l'
    /\ typ n' = typ n
    /\ stmts n' = stmts n
    /\ right n' = right n.
Proof.
  exists (set_left n (Some l')).
  rewrite typeCheck_S; unfold typeCheckBody.
  destruct Hop as [Hop | Hop]; rewrite Hop; run; repeat split.
Qed.

Lemma operator_body chk fn n :
  isOperator (op n) = true ->
  typeCheckBody chk fn n
  = bind (checkChild chk (left n)) (fun '(l, e1) =>
      let n := set_left n (Some l) in
      bind (checkChild chk (right n)) (fun '(r, e2) =>
        let n := set_right n (Some r) in
        checkOperator n l r (e1 ++ e2))).
Proof.
  unfold typeCheckBody; destruct (op n); intros H; try discriminate H;
    reflexivity.
Qed.

(** What the operator case does once both operands have types. *)
Lemma operator_cases fuel fn n l r l' r' e1 e2 lt rt
  (Hop : isOperator (op n) = true)
  (Hleft : left n = Some l)
  (Hright : right n = Some r)
  (Hl : typeCheck fuel fn l = Done (l', e1))
  (Hr : typeCheck fuel fn r = Done (r', e2))
  (Hlt : typ l' = Some lt)
  (Hrt : typ r' = Some rt) :
  typeCheck (S fuel) fn n
  = checkOperator (set_right (set_left n (Some l')) (Some r')) l' r'
                  (e1 ++ e2).
Proof.
  rewrite typeCheck_S, operator_body by exact Hop.
  now run.
Qed.

(** C3 (amended).  Once both operands of a binary arithmetic/boolean
    operator have types, the left operand's kind is validated first: if
    the operator does not accept it, that one error is recorded and the
    check of the node ends, the right operand's kind not being looked
    at; otherwise, if the right operand's kind is not accepted, that one
    error is recorded and the check ends; when both kinds are accepted
    the node takes the left operand's type, with a mismatch error when
    the two kinds differ. *)
Theorem operator_kinds fuel fn n l r l' r' e1 e2 lt rt ltok rtok ntok
  (Hop : isOperator (op n) = true)
  (Hleft : left n = Some l)
  (Hright : right n = Some r)
  (Hl : typeCheck fuel fn l = Done (l', e1))
  (Hr : typeCheck fuel fn r = Done (r', e2))
  (Hlt : typ l' = Some lt)
  (Hrt : typ r' = Some rt)
  (Hltok : token l' = Some ltok)
  (Hrtok : token r' = Some rtok)
  (Hntok : token n = Some ntok) :
  let n' := set_right (set_left n (Some l')) (Some r') in
  (isValid (op n) (Kind lt) = false ->
     typeCheck (S fuel) fn n
     = Done (n', (e1 ++ e2)
                 ++ [semanticError2 errInvalidOperatorTypeMsg ltok
                       [ATypeName lt; AStr (Lex.Val ntok)]]))
  /\ (isValid (op n) (Kind lt) = true ->
      isValid (op n) (Kind rt) = false ->
     typeCheck (S fuel) fn n
     = Done (n', (e1 ++ e2)
                 ++ [semanticError2 errInvalidOperatorTypeMsg rtok
                       [ATypeName rt; AStr (Lex.Val ntok)]]))
  /\ (isValid (op n) (Kind lt) = true ->
      isValid (op n) (Kind rt) = true ->
     typeCheck (S fuel) fn n
     = Done (set_typ n' (Some lt),
             if TypeKind_eqb (Kind lt) (Kind rt) then e1 ++ e2
             else (e1 ++ e2)
                  ++ [semanticError2 errMismatchedTypesMsg ltok
                        [ATypeName lt; ATypeName rt]])).
Proof.
  intros n'.
  rewrite (operator_cases fuel fn n Hop Hleft Hright Hl Hr Hlt Hrt).
  unfold checkOperator; repeat split; intros; run; try reflexivity.
  destruct (TypeKind_eqb (Kind lt) (Kind rt)); now run.
Qed.

(** C10.  When both operand types are accepted by the operator and
    their kinds differ, a mismatch error is recorded after the operands'
    errors and the node still takes the left operand's type. *)
Theorem operator_mismatch_keeps_type
  fuel fn n l r l' r' e1 e2 lt rt ltok ntok
  (Hop : isOperator (op n) = true)
  (Hleft : left n = Some l)
  (Hright : right n = Some r)
  (Hl : typeCheck fuel fn l = Done (l', e1))
  (Hr : typeCheck fuel fn r = Done (r', e2))
  (Hlt : typ l' = Some lt)
  (Hrt : typ r' = Some rt)
  (Hltok : token l' = Some ltok)
  (Hntok : token n = Some ntok)
  (Hvl : isValid (op n) (Kind lt) = true)
  (Hvr : isValid (op n) (Kind rt) = true)
  (Hdiff : Kind lt <> Kind rt) :
  exists n',
    typeCheck (S fuel) fn n
    = Done (n', (e1 ++ e2)
                ++ [semanticError2 errMismatchedTypesMsg ltok
                      [ATypeName lt; ATypeName rt]])
    /\ typ n' = Some lt
    /\ hasType n' = true.
Proof.
  exists (set_typ (set_right (set_left n (Some l')) (Some r')) (Some lt)).
  rewrite (operator_cases fuel fn n Hop Hleft Hright Hl Hr Hlt Hrt).
  assert (Hneq : TypeKind_eqb (Kind lt) (Kind rt) = false)
    by (destruct (Kind lt), (Kind rt); try reflexivity; now elim Hdiff).
  unfold checkOperator; run; repeat split.
Qed.

(** C4 (amended).  Once both operands of an index node have types: an
    index whose type is not Integer gives one non-integer-index error
    after the operands' errors and the node gets no type; with an
    Integer index the node takes the single-byte type when the left
    type is a String and otherwise the left operand's own type, so that
    indexing an array gives the array type again, not its element type. *)
Theorem array_index fuel fn n l r l' r' e1 e2 lt rt
  (Hop : op n = opArray)
  (Hleft : left n = Some l)
  (Hright : right n = Some r)
  (Hl : typeCheck fuel fn l = Done (l', e1))
  (Hr : typeCheck fuel fn r = Done (r', e2))
  (Hlt : typ l' = Some lt)
  (Hrt : typ r' = Some rt) :
  let n' := set_right (set_left n (Some l')) (Some r') in
  (forall rtok, token r' = Some rtok -> Is rt Integer = false ->
     typeCheck (S fuel) fn n
     = Done (n', (e1 ++ e2)
                 ++ [semanticError2 errNonIntegerIndexMsg rtok
                       [AKind (Kind rt)]])
     /\ typ n' = typ n)
  /\ (forall ntok, token n = Some ntok -> Is rt Integer = true ->
        typeCheck (S fuel) fn n
        = Done (set_typ n' (Some (if Is lt String then byteType else lt)),
                e1 ++ e2)).
Proof.
  intros n'; rewrite typeCheck_S; unfold typeCheckBody; rewrite Hop.
  split; intros t Ht Hint; run; [now split|].
  destruct (Is lt String); now run.
Qed.

(** C7 (amended).  For a dot node whose right side is a call: if the
    check of the left operand leaves it without a type, the node is not
    rewritten and only the left operand's errors are returned; if it has
    a type, the node is rewritten into a call node (operator, token and
    scope of the call, arguments [left] followed by the call's
    arguments, both child slots cleared) and checked by the call rule,
    after the errors of the left operand.  The receiver, already checked
    once, is thus checked again as the first argument. *)
Theorem dot_call_rewrite fuel fn n l l' e1 r
  (Hop : op n = opDot)
  (Hleft : left n = Some l)
  (Hl : typeCheck fuel fn l = Done (l', e1))
  (Hright : right n = Some r)
  (Hr : op r = opFuncCall) :
  (hasType l' = false ->
     typeCheck (S fuel) fn n = Done (set_left n (Some l'), e1))
  /\ (hasType l' = true ->
      let call := rewriteDot n l' r in
      (op call = opFuncCall /\ token call = token r
       /\ symtab call = symtab r /\ stmts call = l' :: stmts r
       /\ left call = None /\ right call = None)
      /\ typeCheck (S fuel) fn n
         = bind (typeCheck fuel fn call)
                (fun '(n', e2) => finish n' (e1 ++ e2))).
Proof.
  rewrite typeCheck_S; unfold typeCheckBody; rewrite Hop.
  unfold checkChild; rewrite Hleft; cbn [deref bind]; rewrite Hl; cbn [bind].
  split; intros Ht; rewrite Ht; cbn [negb]; [reflexivity|].
  split; [repeat split|].
  cbn [right set_left deref bind]; rewrite Hright; cbn [deref bind].
  rewrite Hr; cbn [Op_eqb].
  reflexivity.
Qed.



(** *** More fuel changes nothing *)

Lemma approx_refl {A} (r : Result A) : approx r r.
Proof. now right. Qed.

Lemma approx_bind {A B} (m m' : Result A) (k k' : A -> Result B) :
  approx m m' -> (forall a, approx (k a) (k' a)) ->
  approx (bind m k) (bind m' k').
Proof.
  intros [-> | ->] Hk; [now left|].
  destruct m; cbn; [apply Hk | now right | now left].
Qed.

Lemma checkAll_approx chk chk' (ns : list Node) :
  refines chk chk' -> approx (checkAll chk ns) (checkAll chk' ns).
Proof.
  intros H; induction ns as [|x xs IH]; cbn [checkAll]; [apply approx_refl|].
  apply approx_bind; [apply H|]; intros [x' e1].
  apply approx_bind; [apply IH|]; intros [xs' e2]; apply approx_refl.
Qed.

Lemma checkChild_approx chk chk' (c : option Node) :
  refines chk chk' -> approx (checkChild chk c) (checkChild chk' c).
Proof.
  intros H; unfold checkChild.
  apply approx_bind; [apply approx_refl | apply H].
Qed.

(** Going through the code of a case, one call at a time. *)
Ltac through H :=
  repeat first
    [ apply approx_refl
    | apply (checkAll_approx _ H)
    | apply (checkChild_approx _ H)
    | apply H
    | apply approx_bind; [|intros]
    | match goal with
      | |- approx (match ?x with _ => _ end) _ => destruct x
      end ].

Lemma typeCheckBody_approx chk chk' fn n :
  refines chk chk' ->
  approx (typeCheckBody chk fn n) (typeCheckBody chk' fn n).
Proof.
  intros H; unfold typeCheckBody, checkCall, checkOperator, checkField, finish.
  destruct (op n); through H.
Qed.

Lemma typeCheck_refines fuel fn :
  refines (typeCheck fuel fn) (typeCheck (S fuel) fn).
Proof.
  induction fuel as [|fuel IH]; intros x; [now left|].
  rewrite (typeCheck_S (S fuel)), (typeCheck_S fuel).
  now apply typeCheckBody_approx.
Qed.

(** A check that ended, normally or not, ends the same way on any larger
    fuel. *)
Lemma typeCheck_more_fuel fuel fuel' fn n :
  fuel <= fuel' -> typeCheck fuel fn n <> OutOfFuel ->
  typeCheck fuel' fn n = typeCheck fuel fn n.
Proof.
  induction 1 as [|m Hle IH]; intros Hne; [reflexivity|].
  destruct (typeCheck_refines m fn n) as [Hm | Hm].
  - rewrite IH in Hm by exact Hne. contradiction.
  - rewrite Hm. now apply IH.
Qed.

(** *** Fuel to the size of the tree is enough *)

Lemma size_eq n :
  size n = S (osize (left n) + osize (right n) + lsize (stmts n)
              + lsize (params n)).
Proof. destruct n; reflexivity. Qed.

Lemma size_left n x : left n = Some x -> size x < size n.
Proof. intros H; rewrite (size_eq n), H; cbn [osize]; lia. Qed.

Lemma size_right n x : right n = Some x -> size x < size n.
Proof. intros H; rewrite (size_eq n), H; cbn [osize]; lia. Qed.

Lemma lsize_cons x (ns : list Node) : lsize (x :: ns) = size x + lsize ns.
Proof. reflexivity. Qed.

Lemma lsize_in (ns : list Node) x : In x ns -> size x <= lsize ns.
Proof.
  induction ns as [|y ys IH]; [easy|].
  rewrite lsize_cons; intros [-> | H]; [lia | apply IH in H; lia].
Qed.

Lemma size_stmts n x : In x (stmts n) -> size x < size n.
Proof. intros H; apply lsize_in in H; rewrite (size_eq n); lia. Qed.

Lemma size_params n x : In x (params n) -> size x < size n.
Proof. intros H; apply lsize_in in H; rewrite (size_eq n); lia. Qed.

Lemma size_bound n n' :
  osize (left n') <= osize (left n) ->
  osize (right n') <= osize (right n) ->
  lsize (stmts n') <= lsize (stmts n) ->
  lsize (params n') <= lsize (params n) ->
  size n' <= size n.
Proof. rewrite (size_eq n), (size_eq n'); lia. Qed.

Lemma bounded_panic k w : @bounded SymTab k (Panic w).
Proof. split; [discriminate | intros ? ? [=]]. Qed.

Lemma bounded_done k n' e : size n' <= k -> bounded k (Done (n', e)).
Proof. intros H; split; [discriminate | now intros ? ? [= <- <-]]. Qed.

Lemma checkAll_bounded chk (ns : list Node) :
  (forall x, In x ns -> settled chk x) ->
  checkAll chk ns <> OutOfFuel
  /\ forall ns' e, checkAll chk ns = Done (ns', e) -> lsize ns' <= lsize ns.
Proof.
  induction ns as [|x xs IH]; intros H; cbn [checkAll].
  - split; [discriminate | now intros ? ? [= <- <-]].
  - destruct (H x (or_introl eq_refl)) as [Hx Hsz].
    destruct IH as [Hxs Hszs]; [intros y Hy; apply H; now right|].
    destruct (chk x) as [[x' e1]| |]; cbn [bind];
      [|split; [discriminate | intros ? ? [=]] | contradiction].
    destruct (checkAll chk xs) as [[xs' e2]| |]; cbn [bind];
      [|split; [discriminate | intros ? ? [=]] | contradiction].
    split; [discriminate|]; intros ? ? [= <- <-].
    specialize (Hsz _ _ eq_refl); specialize (Hszs _ _ eq_refl).
    rewrite !lsize_cons; lia.
Qed.

Lemma size_set_typ n t : size (set_typ n t) = size n.
Proof. now destruct n. Qed.

Lemma size_set_sym n s : size (set_sym n s) = size n.
Proof. now destruct n. Qed.

Lemma size_rewriteDot n l0 l' r :
  left n = Some l0 -> right n = Some r -> size l' <= size l0 ->
  size (rewriteDot (set_left n (Some l')) l' r) < size n.
Proof.
  intros Hl Hr Hle.
  rewrite (size_eq n), (size_eq (rewriteDot _ _ _)), Hl, Hr.
  cbn [left right stmts params rewriteDot set_left osize].
  rewrite lsize_cons, (size_eq r); lia.
Qed.

(** The sizes of the nodes built by the setters. *)
Ltac sizes :=
  try (apply bounded_done; apply size_bound);
  cbn [left right stmts params set_left set_right set_stmts set_params
       set_typ set_sym rewriteDot osize];
  repeat match goal with
         | H : left _ = _ |- _ => rewrite H
         | H : right _ = _ |- _ => rewrite H
         end;
  cbn [osize]; rewrite ?size_set_typ, ?size_set_sym; try lia.

(** One call of the recursion on a part of the node. *)
Ltac recur Hs :=
  match goal with
  | |- bounded _ (bind (?chk ?x) _) =>
      let Hne := fresh "Hne" in
      let Hsz := fresh "Hsz" in
      let x' := fresh "x'" in
      let e := fresh "e" in
      destruct (Hs x) as [Hne Hsz];
      [ first [ now apply size_left | now apply size_right
              | eapply size_rewriteDot; eassumption ]
      | destruct (chk x) as [[x' e]| |];
        [ specialize (Hsz _ _ eq_refl); cbn [bind]
        | apply bounded_panic
        | contradiction ] ]
  end.

(** The loop over the statements or the parameters. *)
Ltac recurAll Hs :=
  match goal with
  | |- bounded _ (bind (checkAll ?chk ?ns) _) =>
      let Hne := fresh "Hne" in
      let Hsz := fresh "Hsz" in
      let ns' := fresh "ns'" in
      let e := fresh "e" in
      destruct (@checkAll_bounded chk ns) as [Hne Hsz];
      [ intros ? ?; apply Hs;
        first [ now apply size_stmts | now apply size_params ]
      | destruct (checkAll chk ns) as [[ns' e]| |];
        [ specialize (Hsz _ _ eq_refl); cbn [bind]
        | apply bounded_panic
        | contradiction ] ]
  end.

Lemma bind_assoc {A B C} (m : Result A) (k : A -> Result B)
      (h : B -> Result C) :
  bind (bind m k) h = bind m (fun a => bind (k a) h).
Proof. now destruct m. Qed.

(** The code between the calls. *)
Ltac straight1 :=
  match goal with
  | |- bounded _ (Panic _) => apply bounded_panic
  | |- bounded _ (bind (deref ?o) _) => destruct o eqn:?
  | |- bounded _ (bind (AsFunction ?t) _) =>
      unfold AsFunction; destruct (Data t)
  | |- bounded _ (bind (AsStruct ?t) _) =>
      unfold AsStruct; destruct (Data t)
  | |- bounded _ (bind (if ?b then _ else _) _) => destruct b
  | |- bounded _ (if ?b then _ else _) => destruct b
  | |- bounded _ (match ?o with Some _ => _ | None => _ end) =>
      destruct o eqn:?
  | |- bounded _ (let (_, _) := ?x in _) => destruct x
  | |- bounded _ (Done (if ?b then _ else _, _)) => destruct b
  end.

Ltac straight :=
  first
  [ progress cbn [bind deref left right stmts params token typ sym op
                  symtab set_left set_right set_stmts set_params set_typ
                  set_sym]
  | rewrite bind_assoc
  | straight1 ].

Lemma typeCheckBody_settled chk fn n :
  (forall x, size x < size n -> settled chk x) ->
  settled (typeCheckBody chk fn) n.
Proof.
  intros Hs; unfold settled.
  unfold typeCheckBody, checkCall, checkOperator, checkField, finish,
    printTypeInfo, checkChild.
  destruct (op n).
  all: repeat first [ straight | recur Hs | recurAll Hs ].
  all: try (sizes; fail).
  all: match goal with
       | H : size ?a <= size (rewriteDot _ _ _) |- bounded _ (Done (?a, _)) =>
           apply bounded_done; eapply Nat.le_trans; [exact H|];
           apply Nat.lt_le_incl; eapply size_rewriteDot; eassumption
       end.
Qed.

(** Fuel to the size of the tree lets the check end, normally or by a
    panic, and the checked tree is no larger than the tree. *)
Lemma typeCheck_enough_fuel fuel fn n :
  size n <= fuel -> settled (typeCheck fuel fn) n.
Proof.
  revert n; induction fuel as [|fuel IH]; intros n Hle.
  - rewrite (size_eq n) in Hle; lia.
  - unfold settled; rewrite typeCheck_S.
    apply typeCheckBody_settled; intros x Hx; apply IH; lia.
Qed.

(** The check of a tree is the same for every fuel from its size on. *)
Lemma typeCheck_total fuel fn n :
  size n <= fuel ->
  typeCheck fuel fn n = typeCheck (size n) fn n
  /\ typeCheck (size n) fn n <> OutOfFuel.
Proof.
  intros Hle.
  destruct (@typeCheck_enough_fuel (size n) fn n (le_n _)) as [Hne _].
  split; [now apply typeCheck_more_fuel | exact Hne].
Qed.

(** A struct declaration whose name is empty makes [name[:1]] panic;
    other nodes are passed over. *)
Lemma struct_constructor_empty_name root n tok :
  op n = opStruct -> token n = Some tok -> Lex.Val tok = "" ->
  generateStructConstructors root n = Panic SliceBounds.
Proof.
  intros Hop Htok Hname; unfold generateStructConstructors.
  now rewrite Hop, Htok; cbn; rewrite Hname.
Qed.


End Facts.

(** In the scopes modelled from the spec, a name that is new to a level
    resolves, once defined, to the symbol defined. *)
Lemma ScopeDefine_resolves st (s : Symbol Scope) :
  lookupLevel (Name s) (symbols st) = None ->
  ScopeResolve (ScopeDefine st s) (Name s) = Some s.
Proof.
  intros H; unfold ScopeDefine; rewrite H.
  cbn [ScopeResolve lookupLevel]; now rewrite String.eqb_refl.
Qed.

(** The witness of [call_arity]: [f(undefinedName)] against the binary
    [f]. *)
Lemma call_arity_witness :
  typeCheck 2 None Examples.shortCall
  = Done (Examples.shortCall,
          [semanticError errTooFewArgsMsg (Examples.tok "f") []]).
Proof.
  refine (proj1 (@call_arity _ _ 1 None Examples.shortCall (Examples.tok "f")
                   (MkSymbol "f" 0 (Examples.fnType "f" 2 false Examples.stringType))
                   (MkFunctionType "f" 2 false false Examples.stringType Examples.empty)
                   _ _ _ _ _) _); try reflexivity.
Defined.

(** C1 fails as stated: in [f(undefinedName)] the argument, checked on
    its own, has an error, and the check of the call does not report it. *)
Lemma call_arity_counterexample :
  In (Examples.ident "undefinedName") (stmts Examples.shortCall)
  /\ In (semanticError errUnknownVarMsg (Examples.tok "undefinedName") [])
        (errorsOf (typeCheck 1 None (Examples.ident "undefinedName")))
  /\ errorsOf (typeCheck 2 None Examples.shortCall)
     = [semanticError errTooFewArgsMsg (Examples.tok "f") []]
  /\ ~ statementsChecked 1 None Examples.shortCall.
Proof.
  split; [now left|]; split; [now left|]; split; [reflexivity|].
  intros H.
  specialize (H (Examples.ident "undefinedName")
                (semanticError errUnknownVarMsg (Examples.tok "undefinedName") [])).
  cbn in H.
  destruct H as [H | []]; [now left | now left | discriminate H].
Qed.

(** The witness of [if_condition_not_boolean]: [if 1 { undefinedName }]. *)
Lemma if_condition_not_boolean_witness :
  exists n',
    typeCheck 2 None Examples.ifOnInteger
    = Done (n', [] ++ [semanticError2 errMismatchedTypesMsg (Examples.tok "1")
                         [AKind Integer; AKind Boolean]])
    /\ left n' = Some (set_typ (Examples.lit "1" intType) (Some intType))
    /\ typ n' = None
    /\ stmts n' = [Examples.ident "undefinedName"]
    /\ right n' = None.
Proof.
  exact (@if_condition_not_boolean _ _ 1 None Examples.ifOnInteger
           (Examples.lit "1" intType)
           (set_typ (Examples.lit "1" intType) (Some intType)) []
           intType (Examples.tok "1")
           (or_introl eq_refl) eq_refl eq_refl eq_refl eq_refl eq_refl).
Defined.

(** C2 fails as stated: the body statement of [if 1 { undefinedName }]
    has an error of its own, and the check of the if does not report
    it. *)
Lemma if_condition_counterexample :
  In (Examples.ident "undefinedName") (stmts Examples.ifOnInteger)
  /\ In (semanticError errUnknownVarMsg (Examples.tok "undefinedName") [])
        (errorsOf (typeCheck 1 None (Examples.ident "undefinedName")))
  /\ errorsOf (typeCheck 2 None Examples.ifOnInteger)
     = [semanticError2 errMismatchedTypesMsg (Examples.tok "1")
          [AKind Integer; AKind Boolean]]
  /\ ~ statementsChecked 1 None Examples.ifOnInteger.
Proof.
  split; [now left|]; split; [now left|]; split; [reflexivity|].
  intros H.
  specialize (H (Examples.ident "undefinedName")
                (semanticError errUnknownVarMsg (Examples.tok "undefinedName") [])).
  cbn in H.
  destruct H as [H | []]; [now left | now left | discriminate H].
Qed.

(** The witness of [operator_kinds]: [b * "s"]. *)
Lemma operator_kinds_witness :
  typeCheck 2 None Examples.boolTimesString
  = Done (set_right
            (set_left Examples.boolTimesString
               (Some (set_typ (set_sym (Examples.ident "b")
                                 (Some (MkSymbol "b" 24 boolType)))
                              (Some boolType))))
            (Some (set_typ (Examples.lit "s" Examples.stringType)
                           (Some Examples.stringType))),
          ([] ++ [])
          ++ [semanticError2 errInvalidOperatorTypeMsg (Examples.tok "b")
                [ATypeName boolType; AStr "*"]]).
Proof.
  exact (proj1 (@operator_kinds _ _ 1 None Examples.boolTimesString
                  (Examples.ident "b") (Examples.lit "s" Examples.stringType)
                  _ _ [] [] boolType Examples.stringType
                  (Examples.tok "b") (Examples.tok "s") (Examples.tok "*")
                  eq_refl eq_refl eq_refl eq_refl eq_refl eq_refl eq_refl
                  eq_refl eq_refl eq_refl) eq_refl).
Defined.

(** C3 fails as stated: in [b * "s"] both operands have types, neither
    kind is accepted by [*], and one operator-type error is recorded,
    not two. *)
Lemma operator_kinds_counterexample :
  isValid opMul Boolean = false
  /\ isValid opMul String = false
  /\ countMsg errInvalidOperatorTypeMsg
       (errorsOf (typeCheck 2 None Examples.boolTimesString)) = 1
  /\ countMsg errInvalidOperatorTypeMsg
       (errorsOf (typeCheck 2 None Examples.boolTimesString)) <> 2.
Proof.
  repeat split; discriminate.
Qed.

(** The witness of [operator_mismatch_keeps_type]: [1 + "s"]. *)
Lemma operator_mismatch_keeps_type_witness :
  exists n',
    typeCheck 2 None Examples.intPlusString
    = Done (n', ([] ++ [])
                ++ [semanticError2 errMismatchedTypesMsg (Examples.tok "1")
                      [ATypeName intType; ATypeName Examples.stringType]])
    /\ typ n' = Some intType
    /\ hasType n' = true.
Proof.
  refine (@operator_mismatch_keeps_type _ _ 1 None Examples.intPlusString
            (Examples.lit "1" intType) (Examples.lit "s" Examples.stringType)
            _ _ [] [] intType Examples.stringType
            (Examples.tok "1") (Examples.tok "+")
            eq_refl eq_refl eq_refl eq_refl eq_refl eq_refl eq_refl
            eq_refl eq_refl eq_refl eq_refl _).
  discriminate.
Defined.

(** The witness of [array_index]: [s[i]] has the single-byte type. *)
Lemma array_index_witness :
  typeCheck 2 None Examples.indexString
  = Done (set_typ
            (set_right
               (set_left Examples.indexString
                  (Some (set_typ (set_sym (Examples.ident "s")
                                    (Some (MkSymbol "s" 0 Examples.stringType)))
                                 (Some Examples.stringType))))
               (Some (set_typ (set_sym (Examples.ident "i")
                                 (Some (MkSymbol "i" 16 intType)))
                              (Some intType))))
            (Some byteType),
          [] ++ []).
Proof.
  exact (proj2 (@array_index _ _ 1 None Examples.indexString
                  (Examples.ident "s") (Examples.ident "i")
                  _ _ [] [] Examples.stringType intType
                  eq_refl eq_refl eq_refl eq_refl eq_refl eq_refl eq_refl)
               (Examples.tok "[") eq_refl eq_refl).
Defined.

(** C4 fails as stated: [xs] is an array of integers and [i] an integer;
    [xs[i]] is given the array type, not the element type. *)
Lemma array_index_counterexample :
  option_map (@typ Scope) (nodeOf (typeCheck 2 None Examples.indexArray))
  = Some (Some Examples.arrayOfInt)
  /\ Data Examples.arrayOfInt = ArrayData intType
  /\ option_map (@typ Scope) (nodeOf (typeCheck 2 None Examples.indexArray))
     <> Some (Some intType).
Proof.
  repeat split; discriminate.
Qed.

(** C5 on the code.  The string-length case looks at the type of the
    receiver's symbol, not at the type the receiver was given.  The call
    [f(1, 2)] is given the type String, yet [f(1, 2).length] is refused
    as "not a struct" and stays without a type; ["a" + "b"] is given the
    type String and has no symbol, and [("a" + "b").length] ends in a
    nil dereference.  On a literal the case applies. *)
Theorem string_length_on_typed_receivers :
  (option_map (@typ Scope)
     (nodeOf (typeCheck 2 None
                (Examples.call "f" [Examples.lit "1" intType;
                                    Examples.lit "2" intType])))
   = Some (Some Examples.stringType)
   /\ errorsOf (typeCheck 3 None Examples.lengthOfCall)
      = [semanticError errNotStructMsg (Examples.tok "f") []]
   /\ option_map (@typ Scope) (nodeOf (typeCheck 3 None Examples.lengthOfCall))
      = Some None)
  /\ (option_map (@typ Scope)
        (nodeOf (typeCheck 2 None
                   (Examples.binary opAdd "+"
                      (Examples.lit "a" Examples.stringType)
                      (Examples.lit "b" Examples.stringType))))
      = Some (Some Examples.stringType)
      /\ typeCheck 3 None Examples.lengthOfSum = Panic NilDeref)
  /\ (errorsOf (typeCheck 2 None Examples.lengthOfLiteral) = []
      /\ option_map (@typ Scope)
           (nodeOf (typeCheck 2 None Examples.lengthOfLiteral))
         = Some (Some intType)).
Proof.
  repeat split.
Qed.

(** The witness of [dot_call_rewrite]: [(1 + "s").f(2)]. *)
Lemma dot_call_rewrite_witness :
  typeCheck 4 None Examples.methodCall
  = bind (typeCheck 3 None
            (rewriteDot Examples.methodCall
               (set_typ
                  (set_right
                     (set_left Examples.intPlusString
                        (Some (set_typ (Examples.lit "1" intType)
                                       (Some intType))))
                     (Some (set_typ (Examples.lit "s" Examples.stringType)
                                    (Some Examples.stringType))))
                  (Some intType))
               (Examples.call "f" [Examples.lit "2" intType])))
         (fun '(n', e2) =>
            finish n'
              ([semanticError2 errMismatchedTypesMsg (Examples.tok "1")
                  [ATypeName intType; ATypeName Examples.stringType]]
               ++ e2)).
Proof.
  exact (proj2 (proj2 (@dot_call_rewrite _ _ 3 None Examples.methodCall
                         Examples.intPlusString _ _
                         (Examples.call "f" [Examples.lit "2" intType])
                         eq_refl eq_refl eq_refl eq_refl eq_refl)
                      eq_refl)).
Defined.

(** C7 fails as stated.  The receiver [1 + "s"] has a type and one
    error: [(1 + "s").f(2)] reports that error twice, once for the
    receiver and once more for the receiver as first argument, where
    [f(1 + "s", 2)] reports it once.  The receiver
    [undefinedName] gets no type: [undefinedName.f(2)] stays a dot node
    without a type, where [f(undefinedName, 2)] is a call node typed
    with the return type of [f]. *)
Lemma dot_call_counterexample :
  errorsOf (typeCheck 4 None Examples.methodCall)
  <> errorsOf (typeCheck 4 None Examples.directCall)
  /\ length (errorsOf (typeCheck 4 None Examples.methodCall)) = 2
  /\ length (errorsOf (typeCheck 4 None Examples.directCall)) = 1
  /\ option_map (fun n => (op n, typ n))
       (nodeOf (typeCheck 4 None Examples.methodCallOnUndefined))
     = Some (opDot, None)
  /\ option_map (fun n => (op n, typ n))
       (nodeOf (typeCheck 4 None Examples.directCallOnUndefined))
     = Some (opFuncCall, Some Examples.stringType).
Proof.
  repeat split; discriminate.
Qed.


End SemanticProofs.

(* ------------------------------------------------------------------ *)
(** ** Properties of the parser *)

Module ParserProofs.

Import Syntax Stated.

Section Facts.

Context {env : Env}.

Implicit Types (p : Parser) (k : Lex.Kind).

Lemma extends_refl (es : list error) : extends es es.
Proof. exists []; now rewrite app_nil_r. Qed.

Lemma extends_trans (a b c : list error) :
  extends a b -> extends b c -> extends a c.
Proof. intros [x ->] [y ->]; exists (x ++ y); now rewrite app_assoc. Qed.

Lemma later_refl p : later p p.
Proof. repeat split; [lia | apply extends_refl]. Qed.

Lemma later_trans p q r : later p q -> later q r -> later p r.
Proof.
  intros (Ht & Hp & He) (Ht' & Hp' & He'); repeat split.
  - congruence.
  - lia.
  - eapply extends_trans; eassumption.
Qed.

Lemma steady_ret {A} (a : A) : steady (mret a).
Proof. intros p; apply later_refl. Qed.

Lemma steady_bind {A B} (m : M A) (h : A -> M B) :
  steady m -> (forall a, steady (h a)) -> steady (mbind m h).
Proof.
  intros Hm Hh p; unfold mbind; specialize (Hm p).
  destruct (m p) as [a q | q | w q |]; try exact Hm.
  specialize (Hh a q); destruct (h a q) as [b r | r | w r |];
    try exact I; try (eapply later_trans; eassumption).
  destruct Hh; split; [eapply later_trans; eassumption | assumption].
Qed.

Lemma steady_current : steady current.
Proof.
  intros p; unfold current.
  destruct (nth_error (tokens p) (pos p)); apply later_refl.
Qed.

Lemma steady_is kinds : steady (is_ kinds).
Proof.
  induction kinds as [|kind rest IH]; cbn [is_]; [apply steady_ret|].
  apply steady_bind; [apply steady_current|]; intros t.
  destruct (Lex.Kind_eqb (Lex.Kind_ t) kind); [apply steady_ret | exact IH].
Qed.

Lemma steady_isNot kinds : steady (isNot kinds).
Proof.
  induction kinds as [|kind rest IH]; cbn [isNot]; [apply steady_ret|].
  apply steady_bind; [apply steady_is|]; intros [|];
    [apply steady_ret | exact IH].
Qed.

Lemma steady_next : steady next.
Proof.
  intros p; unfold next.
  destruct (length (tokens p) <=? pos p + 1)%nat eqn:E.
  - split; [apply later_refl | now apply Nat.leb_le].
  - destruct (nth_error (tokens p) (pos p)); [|apply later_refl].
    repeat split; cbn; [lia | apply extends_refl].
Qed.

Lemma steady_symbolError m t : steady (symbolError m t).
Proof.
  intros p; unfold symbolError; repeat split; cbn; [lia|].
  now eexists.
Qed.

Lemma steady_syntaxError expected : steady (syntaxError expected).
Proof.
  intros p; unfold syntaxError.
  destruct (discard p); cbn [negb]; [apply later_refl|].
  cbn [tokens pos set_discard].
  destruct (nth_error (tokens p) (pos p)); repeat split; cbn;
    try lia; try apply extends_refl.
  now eexists.
Qed.

Lemma steady_clearDiscard : steady clearDiscard.
Proof.
  intros p; unfold clearDiscard; repeat split; cbn;
    [lia | apply extends_refl].
Qed.

Lemma steady_nofuel {A} : steady (fun _ : Parser => @NoFuel env A).
Proof. intros p; exact I. Qed.

Create HintDb steady.
#[local] Hint Resolve steady_ret steady_current steady_is steady_isNot
  steady_next steady_symbolError steady_syntaxError steady_clearDiscard
  steady_nofuel : steady.

(** The composite methods are steady too. *)
Ltac steadily :=
  repeat first
    [ solve [auto with steady]
    | apply steady_bind; [|intros]
    | match goal with
      | |- steady (if ?b then _ else _) => destruct b
      | |- steady (match ?x with _ => _ end) => destruct x
      end ].

Lemma steady_needLoop gas k : steady (needLoop gas k).
Proof.
  induction gas as [|gas IH]; cbn [needLoop]; steadily.
Qed.

Lemma steady_need k : steady (need k).
Proof. intros p; unfold need; apply steady_needLoop. Qed.

Lemma steady_match k : steady (match_ k).
Proof. unfold match_; steadily. Qed.

#[local] Hint Resolve steady_need steady_match : steady.

Lemma later_set_symtab p st : later p (set_symtab p st).
Proof. repeat split; cbn; [lia | apply extends_refl]. Qed.

(** A step that only looks at the symbol table and at [strconv]. *)
Ltac tabled :=
  let p := fresh "p" in
  unfold steady; intros p; cbv beta;
  repeat match goal with
         | |- context [Resolve ?a ?b ?c] => destruct (Resolve a b c)
         | |- context [ParseInt ?x] => destruct (ParseInt x)
         end;
  first [ apply later_refl | apply later_set_symtab | exact I ].

Lemma steady_parseArg : steady parseArg.
Proof.
  unfold parseArg; apply steady_bind; [apply steady_current|]; intros t.
  destruct (Lex.Kind_ t);
    try (apply steady_bind; [apply steady_next|]; intros arg; tabled);
    steadily.
Qed.

#[local] Hint Resolve steady_parseArg : steady.

Lemma steady_parseArgsLoop gas n : steady (parseArgsLoop gas n).
Proof.
  revert n; induction gas as [|gas IH]; intros n; cbn [parseArgsLoop];
    steadily; apply IH.
Qed.

Lemma steady_parseArgs : steady parseArgs.
Proof.
  unfold parseArgs; steadily.
  intros p; apply steady_parseArgsLoop.
Qed.

Lemma steady_fnCallNode t a : steady (fnCallNode t a).
Proof. intros p; apply later_refl. Qed.

#[local] Hint Resolve steady_parseArgs steady_fnCallNode : steady.

Lemma steady_fnCall : steady fnCall.
Proof. unfold fnCall; steadily. Qed.

Lemma steady_fnDclNode t fnCalls : steady (fnDclNode t fnCalls).
Proof.
  intros p; unfold fnDclNode.
  destruct (Resolve (symtab p) symFnDecl (Lex.Val t));
    [|apply later_set_symtab].
  assert (H : steady (mbind (symbolError errRedeclaredMsg t)
                        (fun _ => mret (MkNode (Some t) fnCalls opFuncDcl
                                               (Some s))))) by steadily.
  exact (H p).
Qed.

#[local] Hint Resolve steady_fnCall steady_fnDclNode : steady.

Lemma steady_fnCallsLoop gas fnCalls : steady (fnCallsLoop gas fnCalls).
Proof.
  revert fnCalls; induction gas as [|gas IH]; intros fnCalls;
    cbn [fnCallsLoop]; steadily; apply IH.
Qed.

Lemma steady_fnDeclaration : steady fnDeclaration.
Proof.
  unfold fnDeclaration; steadily.
  intros p; apply steady_fnCallsLoop.
Qed.

#[local] Hint Resolve steady_fnDeclaration : steady.

Lemma steadyFrom_later {A} p q (o : Outcome A) :
  later p q -> steadyFrom q o -> steadyFrom p o.
Proof.
  intros H; destruct o; cbn; try easy.
  - now apply later_trans.
  - intros []; split; [now apply later_trans with q | assumption].
  - now apply later_trans.
Qed.

Lemma steady_parseLoop gas root p :
  steadyFrom p (snd (parseLoop gas root p)).
Proof.
  revert root p; induction gas as [|gas IH]; intros root p; cbn [parseLoop].
  - pose proof (steady_isNot [Lex.EOF] p) as H.
    destruct (isNot [Lex.EOF] p) as [[|] q | q | w q |]; exact H || exact I.
  - pose proof (steady_isNot [Lex.EOF] p) as H.
    destruct (isNot [Lex.EOF] p) as [[|] q | q | w q |]; try exact H.
    pose proof (steady_is [Lex.Fn] q) as H1.
    destruct (is_ [Lex.Fn] q) as [[|] q1 | q1 | w1 q1 |]; cbn [snd];
      try (eapply steadyFrom_later; [exact H | exact H1]); try exact I.
    + pose proof (steady_fnDeclaration q1) as H2.
      destruct (fnDeclaration q1) as [d q2 | q2 | w2 q2 |]; cbn [snd];
        try (eapply steadyFrom_later; [exact H|];
             eapply steadyFrom_later; [exact H1 | exact H2]);
        try exact I.
      eapply steadyFrom_later; [exact H|].
      eapply steadyFrom_later; [exact H1|].
      eapply steadyFrom_later; [exact H2 | apply IH].
    + assert (H2 : steady (mbind (syntaxError [Lex.Fn; Lex.EOF])
                                 (fun _ => next))) by steadily.
      specialize (H2 q1).
      destruct (mbind (syntaxError [Lex.Fn; Lex.EOF]) (fun _ => next) q1)
        as [d q2 | q2 | w2 q2 |]; cbn [snd];
        try (eapply steadyFrom_later; [exact H|];
             eapply steadyFrom_later; [exact H1 | exact H2]);
        try exact I.
      eapply steadyFrom_later; [exact H|].
      eapply steadyFrom_later; [exact H1|].
      eapply steadyFrom_later; [exact H2 | apply IH].
Qed.


(** *** [is], [next] and [syntaxError] on a state *)

Lemma is_one k p :
  is_ [k] p
  = match nth_error (tokens p) (pos p) with
    | Some t => Ok (Lex.Kind_eqb (Lex.Kind_ t) k) p
    | None => Crash IndexOutOfRange p
    end.
Proof.
  cbn [is_]; unfold mbind, current, mret.
  destruct (nth_error (tokens p) (pos p)) as [t|]; [|reflexivity].
  now destruct (Lex.Kind_eqb (Lex.Kind_ t) k).
Qed.

Lemma isNot_one k p :
  isNot [k] p
  = match nth_error (tokens p) (pos p) with
    | Some t => Ok (negb (Lex.Kind_eqb (Lex.Kind_ t) k)) p
    | None => Crash IndexOutOfRange p
    end.
Proof.
  cbn [isNot]; unfold mbind at 1; rewrite is_one.
  destruct (nth_error (tokens p) (pos p)) as [t|]; [|reflexivity].
  now destruct (Lex.Kind_eqb (Lex.Kind_ t) k).
Qed.

Lemma current_token p t :
  nth_error (tokens p) (pos p) = Some t -> pos p < length (tokens p).
Proof. intros H; apply nth_error_Some; congruence. Qed.

Lemma next_eof p : outOfTokens p -> next p = Eof p.
Proof.
  unfold outOfTokens, next; intros H.
  apply Nat.leb_le in H; now rewrite H.
Qed.

Lemma next_ok p t :
  ~ outOfTokens p -> nth_error (tokens p) (pos p) = Some t ->
  next p = Ok t (set_pos p (pos p + 1)).
Proof.
  unfold outOfTokens, next; intros H Ht.
  apply Nat.leb_nle in H; now rewrite H, Ht.
Qed.

Lemma syntaxError_discarding expected p :
  discard p = true -> syntaxError expected p = Ok tt p.
Proof. unfold syntaxError; now intros ->. Qed.

Lemma syntaxError_recording expected p t :
  discard p = false -> nth_error (tokens p) (pos p) = Some t ->
  syntaxError expected p
  = Ok tt (set_errs (set_discard p true)
             (errs p ++ [SyntaxError (Lex.File t) (Lex.Line t) (Lex.Pos t)
                                     (Lex.Val t) expected])).
Proof.
  unfold syntaxError; intros -> Ht; cbn [negb tokens pos set_discard].
  now rewrite Ht.
Qed.

Lemma outOfTokens_dec p : {outOfTokens p} + {~ outOfTokens p}.
Proof. unfold outOfTokens; apply le_dec. Qed.

(** *** [need] *)

Lemma skipped_nil k p i : skipped k p i i.
Proof. intros x t Hx; lia. Qed.

Lemma skipped_cons k p i j t :
  nth_error (tokens p) i = Some t ->
  Lex.Kind_eqb (Lex.Kind_ t) k = false ->
  skipped k p (i + 1) j -> skipped k p i j.
Proof.
  intros Ht Hk H x u Hx Hu.
  destruct (Nat.eq_dec x i) as [-> | Hne]; [congruence|].
  apply (H x u); [lia | exact Hu].
Qed.

Lemma diagnostic_discarding k p : discard p = true -> diagnostic k p = [].
Proof. unfold diagnostic; now intros ->. Qed.

Lemma needLoop_spec gas k p :
  remaining p <= gas -> needSpec k p (needLoop gas k p).
Proof.
  revert p; induction gas as [|gas IH]; intros p Hgas;
    cbn [needLoop]; unfold mbind at 1; rewrite is_one;
    destruct (nth_error (tokens p) (pos p)) as [t|] eqn:Ht;
    try (cbn [needSpec]; now apply nth_error_None).
  all: pose proof (current_token p Ht) as Hlt.
  all: destruct (Lex.Kind_eqb (Lex.Kind_ t) k) eqn:Hk.
  all: try (unfold remaining in Hgas; lia).
  - (* the current token matches *)
    unfold mbind, clearDiscard; cbv beta.
    destruct (outOfTokens_dec (set_discard p false)) as [Hout | Hout].
    + rewrite (next_eof Hout); cbn [needSpec]; repeat split.
      * apply skipped_nil.
      * exact Hout.
      * unfold diagnostic; rewrite Ht, Hk; cbn.
        destruct (discard p); now rewrite app_nil_r.
    + rewrite (next_ok (t := t) Hout) by exact Ht.
      cbn [needSpec pos set_pos set_discard discard errs tokens].
      replace (pos p + 1 - 1) with (pos p) by lia.
      repeat split; trivial; try lia.
      * apply skipped_nil.
      * unfold diagnostic; rewrite Ht, Hk.
        destruct (discard p); now rewrite app_nil_r.
  - (* an unexpected token: one diagnostic at most, one token on *)
    unfold mbind at 1, current; rewrite Ht; cbv beta iota.
    unfold mbind at 1.
    assert (Hsyn : exists q,
               syntaxError [k] p = Ok tt q
               /\ tokens q = tokens p /\ pos q = pos p
               /\ discard q = true
               /\ errs q = errs p ++ diagnostic k p).
    { destruct (discard p) eqn:Hd.
      - exists p; rewrite (syntaxError_discarding _ _ Hd).
        rewrite (diagnostic_discarding _ _ Hd), app_nil_r; auto.
      - eexists; rewrite (syntaxError_recording _ _ Hd Ht).
        split; [reflexivity|]; cbn; repeat split.
        unfold diagnostic; now rewrite Hd, Ht, Hk. }
    destruct Hsyn as (q & -> & Htq & Hpq & Hdq & Heq); cbv beta iota.
    unfold mbind at 1.
    destruct (outOfTokens_dec q) as [Hout | Hout].
    + rewrite (next_eof Hout); cbn [needSpec]; repeat split.
      * rewrite Hpq; apply skipped_nil.
      * exact Hout.
      * exact Heq.
    + rewrite (next_ok (t := t) Hout) by (rewrite Htq, Hpq; exact Ht).
      set (q' := set_pos q (pos q + 1)).
      assert (Hrem : remaining q' <= gas).
      { unfold remaining, q' in *; cbn; rewrite Htq, Hpq; lia. }
      specialize (IH q' Hrem).
      assert (Hdiag : diagnostic k q' = [])
        by (apply diagnostic_discarding; exact Hdq).
      destruct (needLoop gas k q') as [u r | r | w r |];
        cbn [needSpec] in *; unfold q' in *;
        cbn [pos tokens errs set_pos discard] in *.
      * destruct IH as (Hu & Hnth & Hpos & Hskip & Hdr & Her).
        rewrite Htq in Hnth; rewrite Hpq in *.
        repeat split; trivial; try lia.
        -- eapply skipped_cons; try eassumption.
           intros x v Hx Hv; apply (Hskip x v Hx).
           cbn [tokens set_pos]; now rewrite Htq.
        -- now rewrite Her, Hdiag, app_nil_r.
      * destruct IH as (Hskip & Hor & Her).
        rewrite Hpq in *.
        repeat split; trivial.
        -- eapply skipped_cons; try eassumption.
           intros x v Hx Hv; apply (Hskip x v Hx).
           cbn [tokens set_pos]; now rewrite Htq.
        -- now rewrite Her, Hdiag, app_nil_r.
      * unfold outOfTokens in Hout; rewrite Htq, Hpq in *; lia.
      * exact IH.
Qed.

Lemma need_spec k p : needSpec k p (need k p).
Proof. unfold need; now apply needLoop_spec. Qed.

(** *** The loops of the parser never outrun the tokens *)

Lemma fuelled_ret {A} (a : A) : fuelled (mret a).
Proof. intros p; discriminate. Qed.

Lemma fuelled_bind {A B} (m : M A) (h : A -> M B) :
  fuelled m -> (forall a, fuelled (h a)) -> fuelled (mbind m h).
Proof.
  intros Hm Hh p; unfold mbind; specialize (Hm p).
  destruct (m p) as [a q | q | w q |]; try discriminate; [apply Hh | easy].
Qed.

Lemma fuelled_current : fuelled current.
Proof.
  intros p; unfold current; destruct (nth_error _ _); discriminate.
Qed.

Lemma fuelled_is kinds : fuelled (is_ kinds).
Proof.
  induction kinds as [|kind rest IH]; cbn [is_]; [apply fuelled_ret|].
  apply fuelled_bind; [apply fuelled_current|]; intros t.
  destruct (Lex.Kind_eqb _ _); [apply fuelled_ret | exact IH].
Qed.

Lemma fuelled_isNot kinds : fuelled (isNot kinds).
Proof.
  induction kinds as [|kind rest IH]; cbn [isNot]; [apply fuelled_ret|].
  apply fuelled_bind; [apply fuelled_is|]; intros [|];
    [apply fuelled_ret | exact IH].
Qed.

Lemma fuelled_next : fuelled next.
Proof.
  intros p; unfold next.
  destruct (_ <=? _)%nat; [discriminate|].
  destruct (nth_error _ _); discriminate.
Qed.

Lemma fuelled_symbolError m t : fuelled (symbolError m t).
Proof. intros p; discriminate. Qed.

Lemma fuelled_syntaxError expected : fuelled (syntaxError expected).
Proof.
  intros p; unfold syntaxError.
  destruct (negb _); [|discriminate].
  destruct (nth_error _ _); discriminate.
Qed.

Lemma fuelled_clearDiscard : fuelled clearDiscard.
Proof. intros p; discriminate. Qed.

Lemma fuelled_need k : fuelled (need k).
Proof.
  intros p H; pose proof (need_spec k p) as Hs; now rewrite H in Hs.
Qed.

Lemma consuming_need k : consuming (need k).
Proof.
  intros p t p' H; pose proof (need_spec k p) as Hs.
  rewrite H in Hs; cbn in Hs; tauto.
Qed.

Lemma consuming_next : consuming next.
Proof.
  intros p t p'; unfold next.
  destruct (_ <=? _)%nat; [discriminate|].
  destruct (nth_error _ _); [|discriminate].
  intros [= _ <-]; cbn; lia.
Qed.

Lemma consuming_bind_l {A B} (m : M A) (h : A -> M B) :
  consuming m -> (forall a, steady (h a)) -> consuming (mbind m h).
Proof.
  intros Hm Hh p b r; unfold mbind.
  destruct (m p) as [a q | q | w q |] eqn:E; try discriminate.
  intros H; specialize (Hm _ _ _ E); specialize (Hh a q).
  rewrite H in Hh; destruct Hh as (_ & Hpos & _); lia.
Qed.

Lemma consuming_bind_r {A B} (m : M A) (h : A -> M B) :
  steady m -> (forall a, consuming (h a)) -> consuming (mbind m h).
Proof.
  intros Hm Hh p b r; unfold mbind; specialize (Hm p).
  destruct (m p) as [a q | q | w q |] eqn:E; try discriminate.
  intros H; specialize (Hh a _ _ _ H); destruct Hm as (_ & Hpos & _); lia.
Qed.

Create HintDb fuelled.
#[local] Hint Resolve fuelled_ret fuelled_current fuelled_is fuelled_isNot
  fuelled_next fuelled_symbolError fuelled_syntaxError fuelled_clearDiscard
  fuelled_need : fuelled.

Ltac fuelling :=
  repeat first
    [ solve [auto with fuelled]
    | apply fuelled_bind; [|intros]
    | match goal with
      | |- fuelled (if ?b then _ else _) => destruct b
      | |- fuelled (match ?x with _ => _ end) => destruct x
      end ].

Lemma fuelled_match k : fuelled (match_ k).
Proof. unfold match_; fuelling. Qed.

Lemma fuelled_parseArg : fuelled parseArg.
Proof.
  unfold parseArg; apply fuelled_bind; [apply fuelled_current|]; intros t.
  destruct (Lex.Kind_ t); fuelling;
    intros p; cbv beta;
    repeat match goal with
           | |- context [Resolve ?a ?b ?c] => destruct (Resolve a b c)
           | |- context [ParseInt ?x] => destruct (ParseInt x)
           end; discriminate.
Qed.

#[local] Hint Resolve fuelled_match fuelled_parseArg : fuelled.

(** A later state has no more tokens left; a state past a consumed
    token has fewer. *)
Lemma remaining_later p q : later p q -> remaining q <= remaining p.
Proof. intros (Ht & Hp & _); unfold remaining; rewrite Ht; lia. Qed.

Lemma remaining_consumed p q :
  later p q -> pos p < pos q -> pos p < length (tokens p) ->
  remaining q < remaining p.
Proof. intros (Ht & _ & _) Hp Hl; unfold remaining; rewrite Ht; lia. Qed.

Lemma match_true k p p' :
  match_ k p = Ok true p' ->
  pos p < length (tokens p) /\ pos p < pos p'.
Proof.
  unfold match_, mbind at 1; rewrite is_one.
  destruct (nth_error (tokens p) (pos p)) as [t|] eqn:Ht; [|discriminate].
  destruct (Lex.Kind_eqb _ _); [|discriminate].
  intros H; split; [now apply current_token with t|].
  revert H; unfold mbind.
  destruct (next p) as [u q | q | w q |] eqn:E; try discriminate.
  apply consuming_next in E; cbn; intros [= <-]; cbn; exact E.
Qed.

Lemma fuelled_parseArgsLoop gas n p :
  remaining p <= gas -> parseArgsLoop gas n p <> NoFuel.
Proof.
  revert n p; induction gas as [|gas IH]; intros n p Hgas;
    cbn [parseArgsLoop]; unfold mbind at 1;
    pose proof (fuelled_match Lex.Comma p) as Hf;
    pose proof (steady_match Lex.Comma p) as Hst;
    destruct (match_ Lex.Comma p) as [[|] q | q | w q |] eqn:E;
    try discriminate; try contradiction;
    apply match_true in E; destruct E as [Hl Hp].
  - unfold remaining in Hgas; lia.
  - pose proof (remaining_consumed Hst Hp Hl) as Hq.
    unfold mbind; pose proof (fuelled_parseArg q) as Hfa.
    pose proof (steady_parseArg q) as Hsa.
    destruct (parseArg q) as [a r | r | w r |]; try discriminate;
      try contradiction.
    apply IH; apply remaining_later in Hsa; lia.
Qed.

Lemma fuelled_parseArgs : fuelled parseArgs.
Proof.
  unfold parseArgs; fuelling.
  intros p; now apply fuelled_parseArgsLoop.
Qed.

Lemma fuelled_fnCallNode t a : fuelled (fnCallNode t a).
Proof. intros p; discriminate. Qed.

#[local] Hint Resolve fuelled_parseArgs fuelled_fnCallNode : fuelled.

Lemma fuelled_fnCall : fuelled fnCall.
Proof. unfold fnCall; fuelling. Qed.

Lemma consuming_fnCall : consuming fnCall.
Proof.
  unfold fnCall; apply consuming_bind_l; [apply consuming_need|].
  intros t; steadily.
Qed.

Lemma fuelled_fnDclNode t fnCalls : fuelled (fnDclNode t fnCalls).
Proof.
  intros p; unfold fnDclNode.
  destruct (Resolve _ _ _); discriminate.
Qed.

#[local] Hint Resolve fuelled_fnCall fuelled_fnDclNode : fuelled.

Lemma isNot_true k p q :
  isNot [k] p = Ok true q -> q = p /\ pos p < length (tokens p).
Proof.
  rewrite isNot_one.
  destruct (nth_error (tokens p) (pos p)) as [t|] eqn:Ht; [|discriminate].
  intros [= _ <-]; split; [reflexivity | now apply current_token with t].
Qed.

Lemma is_ok k p b q : is_ [k] p = Ok b q -> q = p.
Proof.
  rewrite is_one; destruct (nth_error _ _); [|discriminate].
  now intros [= _ <-].
Qed.

Lemma fuelled_fnCallsLoop gas fnCalls p :
  remaining p <= gas -> fnCallsLoop gas fnCalls p <> NoFuel.
Proof.
  revert fnCalls p; induction gas as [|gas IH]; intros fnCalls p Hgas;
    cbn [fnCallsLoop]; unfold mbind at 1;
    pose proof (fuelled_isNot [Lex.RBrace] p) as Hf;
    destruct (isNot [Lex.RBrace] p) as [[|] q | q | w q |] eqn:E;
    try discriminate; try contradiction;
    apply isNot_true in E; destruct E as [-> Hl].
  - unfold remaining in Hgas; lia.
  - unfold mbind at 1.
    pose proof (fuelled_is [Lex.Identifier] p) as Hi.
    destruct (is_ [Lex.Identifier] p) as [[|] q | q | w q |] eqn:E;
      try discriminate; try contradiction;
      apply is_ok in E; subst q.
    + unfold mbind.
      pose proof (fuelled_fnCall p) as Hc.
      pose proof (steady_fnCall p) as Hs.
      destruct (fnCall p) as [c r | r | w r |] eqn:Ec;
        try discriminate; try contradiction.
      apply consuming_fnCall in Ec.
      pose proof (remaining_consumed Hs Ec Hl).
      apply IH; lia.
    + unfold mbind at 1.
      pose proof (fuelled_syntaxError [Lex.Identifier; Lex.RBrace] p) as Hc.
      pose proof (steady_syntaxError [Lex.Identifier; Lex.RBrace] p) as Hs.
      destruct (syntaxError _ p) as [c r | r | w r |];
        try discriminate; try contradiction.
      unfold mbind.
      pose proof (fuelled_next r) as Hn.
      pose proof (steady_next r) as Hsn.
      destruct (next r) as [u r' | r' | w r' |] eqn:En;
        try discriminate; try contradiction.
      apply consuming_next in En.
      assert (Hlr : later p r') by (eapply later_trans; eassumption).
      destruct Hs as (_ & Hpr & _).
      assert (Hpp : pos p < pos r') by lia.
      pose proof (remaining_consumed Hlr Hpp Hl).
      apply IH; lia.
Qed.

Lemma fuelled_fnDeclaration : fuelled fnDeclaration.
Proof.
  unfold fnDeclaration; fuelling.
  intros p; now apply fuelled_fnCallsLoop.
Qed.

Lemma consuming_fnDeclaration : consuming fnDeclaration.
Proof.
  unfold fnDeclaration; apply consuming_bind_l; [apply consuming_need|].
  intros t; steadily.
  intros p; apply steady_fnCallsLoop.
Qed.

Lemma fuelled_parseLoop gas root p :
  remaining p <= gas -> snd (parseLoop gas root p) <> NoFuel.
Proof.
  revert root p; induction gas as [|gas IH]; intros root p Hgas;
    cbn [parseLoop];
    pose proof (fuelled_isNot [Lex.EOF] p) as Hf;
    destruct (isNot [Lex.EOF] p) as [[|] q | q | w q |] eqn:E;
    try discriminate; try contradiction;
    apply isNot_true in E; destruct E as [-> Hl].
  - unfold remaining in Hgas; lia.
  - pose proof (fuelled_is [Lex.Fn] p) as Hi.
    destruct (is_ [Lex.Fn] p) as [[|] q | q | w q |] eqn:E;
      try discriminate; try contradiction;
      apply is_ok in E; subst q.
    + pose proof (fuelled_fnDeclaration p) as Hc.
      pose proof (steady_fnDeclaration p) as Hs.
      destruct (fnDeclaration p) as [c r | r | w r |] eqn:Ec;
        try discriminate; try contradiction.
      apply consuming_fnDeclaration in Ec.
      pose proof (remaining_consumed Hs Ec Hl).
      apply IH; lia.
    + assert (Hs : steady (mbind (syntaxError [Lex.Fn; Lex.EOF])
                                 (fun _ => next))) by steadily.
      assert (Hc : fuelled (mbind (syntaxError [Lex.Fn; Lex.EOF])
                                  (fun _ => next))) by fuelling.
      assert (Hn : consuming (mbind (syntaxError [Lex.Fn; Lex.EOF])
                                    (fun _ => next))).
      { apply consuming_bind_r; [apply steady_syntaxError|].
        intros _; apply consuming_next. }
      specialize (Hs p); specialize (Hc p).
      destruct (mbind (syntaxError [Lex.Fn; Lex.EOF]) (fun _ => next) p)
        as [c r | r | w r |] eqn:Ec; try discriminate; try contradiction.
      apply Hn in Ec.
      pose proof (remaining_consumed Hs Ec Hl).
      apply IH; lia.
Qed.

(** [Parse] always gives its caller a result or a panic that is not
    the end of input. *)
Lemma Parse_total p : Parse p <> Exhausted.
Proof.
  unfold Parse, parseBody.
  pose proof (@fuelled_parseLoop (remaining p)
                (fold_left Add (extra p) (MkNode None [] opRoot None)) p
                (le_n _)) as H.
  destruct (parseLoop _ _ p) as [root [u q | q | w q |]]; cbn [snd] in H;
    try discriminate; try contradiction.
  assert (Hn : fuelled (mbind (need Lex.EOF) (fun _ => mret tt)))
    by fuelling.
  specialize (Hn q).
  destruct (mbind (need Lex.EOF) (fun _ => mret tt) q); try discriminate.
  contradiction.
Qed.

(** *** No read past the end of the stream *)

Lemma ranged_ret {A} (a : A) : ranged (mret a).
Proof. intros p H; exact H. Qed.

Lemma ranged_bind {A B} (m : M A) (h : A -> M B) :
  ranged m -> (forall a, ranged (h a)) -> ranged (mbind m h).
Proof.
  intros Hm Hh p Hp; unfold mbind; specialize (Hm p Hp).
  destruct (m p) as [a q | q | w q |]; try exact Hm.
  apply Hh; exact Hm.
Qed.

Lemma ranged_current : ranged current.
Proof.
  intros p Hp; unfold current.
  destruct (nth_error (tokens p) (pos p)) eqn:E; [exact Hp|].
  apply nth_error_None in E; unfold inRange in Hp; lia.
Qed.

Lemma ranged_next : ranged next.
Proof.
  intros p Hp; unfold next.
  destruct (_ <=? _)%nat eqn:E; [exact Hp|].
  apply Nat.leb_nle in E.
  destruct (nth_error (tokens p) (pos p)) eqn:E';
    [unfold inRange; cbn; lia|].
  apply nth_error_None in E'; unfold inRange in Hp; lia.
Qed.

Lemma ranged_symbolError m t : ranged (symbolError m t).
Proof. intros p Hp; exact Hp. Qed.

Lemma ranged_syntaxError expected : ranged (syntaxError expected).
Proof.
  intros p Hp; unfold syntaxError.
  destruct (negb _); [|exact Hp]; cbn [tokens pos set_discard].
  destruct (nth_error (tokens p) (pos p)) eqn:E; [exact Hp|].
  apply nth_error_None in E; unfold inRange in Hp; lia.
Qed.

Lemma ranged_clearDiscard : ranged clearDiscard.
Proof. intros p Hp; exact Hp. Qed.

Lemma ranged_nofuel {A} : ranged (fun _ : Parser => @NoFuel env A).
Proof. intros p Hp; exact I. Qed.

Create HintDb ranged.
#[local] Hint Resolve ranged_ret ranged_current ranged_next
  ranged_symbolError ranged_syntaxError ranged_clearDiscard ranged_nofuel
  : ranged.

Ltac ranging :=
  repeat first
    [ solve [auto with ranged]
    | apply ranged_bind; [|intros]
    | match goal with
      | |- ranged (if ?b then _ else _) => destruct b
      | |- ranged (match ?x with _ => _ end) => destruct x
      end ].

Lemma ranged_is kinds : ranged (is_ kinds).
Proof. induction kinds; cbn [is_]; ranging. Qed.

#[local] Hint Resolve ranged_is : ranged.

Lemma ranged_isNot kinds : ranged (isNot kinds).
Proof. induction kinds; cbn [isNot]; ranging. Qed.

#[local] Hint Resolve ranged_isNot : ranged.

Lemma ranged_needLoop gas k : ranged (needLoop gas k).
Proof. induction gas; cbn [needLoop]; ranging. Qed.

Lemma ranged_need k : ranged (need k).
Proof. intros p; unfold need; apply ranged_needLoop. Qed.

Lemma ranged_match k : ranged (match_ k).
Proof. unfold match_; ranging. Qed.

#[local] Hint Resolve ranged_need ranged_match : ranged.

(** A step on the symbol table keeps the position. *)
Ltac rangedTable :=
  let p := fresh "p" in
  let Hp := fresh "Hp" in
  unfold ranged; intros p Hp; cbv beta;
  repeat match goal with
         | |- context [Resolve ?a ?b ?c] => destruct (Resolve a b c)
         | |- context [ParseInt ?x] => destruct (ParseInt x)
         end;
  first [ exact Hp | reflexivity ].

Lemma ranged_parseArg : ranged parseArg.
Proof.
  unfold parseArg; apply ranged_bind; [apply ranged_current|]; intros t.
  destruct (Lex.Kind_ t);
    try (apply ranged_bind; [apply ranged_next|]; intros arg; rangedTable);
    ranging.
Qed.

#[local] Hint Resolve ranged_parseArg : ranged.

Lemma ranged_parseArgsLoop gas n : ranged (parseArgsLoop gas n).
Proof.
  revert n; induction gas as [|gas IH]; intros n; cbn [parseArgsLoop];
    ranging; apply IH.
Qed.

Lemma ranged_parseArgs : ranged parseArgs.
Proof.
  unfold parseArgs; ranging.
  intros p; apply ranged_parseArgsLoop.
Qed.

Lemma ranged_fnCallNode t a : ranged (fnCallNode t a).
Proof. intros p Hp; exact Hp. Qed.

#[local] Hint Resolve ranged_parseArgs ranged_fnCallNode : ranged.

Lemma ranged_fnCall : ranged fnCall.
Proof. unfold fnCall; ranging. Qed.

Lemma ranged_fnDclNode t fnCalls : ranged (fnDclNode t fnCalls).
Proof.
  intros p Hp; unfold fnDclNode.
  destruct (Resolve (symtab p) symFnDecl (Lex.Val t)); exact Hp.
Qed.

#[local] Hint Resolve ranged_fnCall ranged_fnDclNode : ranged.

Lemma ranged_fnCallsLoop gas fnCalls : ranged (fnCallsLoop gas fnCalls).
Proof.
  revert fnCalls; induction gas as [|gas IH]; intros fnCalls;
    cbn [fnCallsLoop]; ranging; apply IH.
Qed.

Lemma ranged_fnDeclaration : ranged fnDeclaration.
Proof.
  unfold fnDeclaration; ranging.
  intros p; apply ranged_fnCallsLoop.
Qed.

Lemma ranged_parseLoop gas root p :
  inRange p ->
  match snd (parseLoop gas root p) with
  | Ok _ p' => inRange p'
  | Eof p' => inRange p'
  | Crash w _ => w = ParseIntFailed
  | NoFuel => True
  end.
Proof.
  revert root p; induction gas as [|gas IH]; intros root p Hp;
    cbn [parseLoop];
    pose proof (@ranged_isNot [Lex.EOF] p Hp) as H;
    destruct (isNot [Lex.EOF] p) as [[|] q | q | w q |]; try exact H;
    try exact I.
  pose proof (@ranged_is [Lex.Fn] q H) as H1.
  destruct (is_ [Lex.Fn] q) as [[|] q1 | q1 | w1 q1 |]; try exact H1.
  - pose proof (@ranged_fnDeclaration q1 H1) as H2.
    destruct (fnDeclaration q1) as [d q2 | q2 | w2 q2 |]; try exact H2.
    now apply IH.
  - assert (H2 : ranged (mbind (syntaxError [Lex.Fn; Lex.EOF])
                               (fun _ => next))) by ranging.
    specialize (H2 q1 H1).
    destruct (mbind (syntaxError [Lex.Fn; Lex.EOF]) (fun _ => next) q1)
      as [d q2 | q2 | w2 q2 |]; try exact H2.
    now apply IH.
Qed.

(** On a stream that is not empty, [Parse] returns its errors and the
    root, unless an integer literal is refused by [strconv.ParseInt]. *)
Lemma Parse_returns p :
  inRange p ->
  (exists es root, Parse p = Returned es root)
  \/ Parse p = Panicked ParseIntFailed.
Proof.
  intros Hp; pose proof (Parse_total p) as Ht; revert Ht.
  unfold Parse, parseBody.
  pose proof (@ranged_parseLoop (remaining p)
                (fold_left Add (extra p) (MkNode None [] opRoot None)) p Hp)
    as H.
  destruct (parseLoop _ _ p) as [root [u q | q | w q |]]; cbn [snd] in H;
    intros Ht; try contradiction; eauto.
  - assert (Hn : ranged (mbind (need Lex.EOF) (fun _ => mret tt)))
      by ranging.
    specialize (Hn q H).
    destruct (mbind (need Lex.EOF) (fun _ => mret tt) q);
      try contradiction; eauto.
    right; now rewrite Hn.
  - right; now rewrite H.
Qed.

(** *** Running out of tokens *)




End Facts.


(** [need(fn)] on [1 2 fn]: two tokens stepped over, one diagnostic. *)
Example need_on_two_strays :
  exists t p',
    need Lex.Fn (NewParser ParserExamples.twoStrays []) = Ok t p'
    /\ pos p' = 3
    /\ errs p' = [SyntaxError "prog.clara" 1 1 "1" [Lex.Fn]].
Proof. do 2 eexists; split; [reflexivity | split; reflexivity]. Qed.

End ParserProofs.

(* ------------------------------------------------------------------ *)
(** ** Properties of the opcode lists *)

Module X64Proofs.

Import X64.

Local Open Scope Z_scope.

(** A property checked on every value below a bound holds below it. *)
Lemma below_forall (f : Z -> bool) (n : nat) :
  forallb f (map Z.of_nat (seq 0 n)) = true ->
  forall z, 0 <= z < Z.of_nat n -> f z = true.
Proof.
  intros H z Hz; rewrite forallb_forall in H; apply H.
  apply in_map_iff; exists (Z.to_nat z); split; [lia|].
  apply in_seq; lia.
Qed.

Lemma length_littleEndian n z : length (littleEndian n z) = n.
Proof. revert z; induction n; intros z; cbn; [reflexivity | now rewrite IHn]. Qed.

Lemma value_littleEndian n z :
  value (littleEndian n z) = z mod 256 ^ Z.of_nat n.
Proof.
  revert z; induction n as [|n IH]; intros z.
  - cbn [littleEndian value]; now rewrite Z.mod_1_r.
  - cbn [littleEndian value]; rewrite IH, Nat2Z.inj_succ, Z.pow_succ_r by lia.
    rewrite Z.rem_mul_r by lia; reflexivity.
Qed.

Lemma bytes_littleEndian n z :
  Forall (fun b => 0 <= b < 256) (littleEndian n z).
Proof.
  revert z; induction n as [|n IH]; intros z; cbn [littleEndian];
    constructor; [apply Z.mod_pos_bound; lia | apply IH].
Qed.

(** *** [ToBuffer] *)

Lemma writeAll_app ops op0 b0 :
  writeAll (ops ++ [op0]) b0
  = andThen (writeAll ops b0)
            (fun b => andThen (Bytes op0) (fun c => Ran (b ++ c))).
Proof.
  revert b0; induction ops as [|o ops IH]; intros b0; cbn [writeAll app].
  - destruct (Bytes op0); reflexivity.
  - destruct (Bytes o); cbn [andThen]; [apply IH | reflexivity].
Qed.

Lemma ToBuffer_Add ol op0 :
  ToBuffer (Add ol op0)
  = andThen (ToBuffer ol)
            (fun b => andThen (Bytes op0) (fun c => Ran (b ++ c))).
Proof. unfold ToBuffer, Add; cbn [Ops]; apply writeAll_app. Qed.

Lemma writeAll_simple ops b0 :
  forallb isSimple ops = true ->
  writeAll ops b0 = Ran (b0 ++ flat_map bytesOf ops).
Proof.
  revert b0; induction ops as [|o ops IH]; intros b0 H; cbn in *.
  - now rewrite app_nil_r.
  - apply andb_prop in H; destruct H as [Ho Hr].
    destruct o; [|discriminate]; cbn; rewrite IH by exact Hr.
    now rewrite app_assoc.
Qed.

Lemma writeAll_rva ops b0 :
  forallb isSimple ops = false ->
  writeAll ops b0 = Panicked "Not implemented".
Proof.
  revert b0; induction ops as [|o ops IH]; intros b0 H; cbn in *;
    [discriminate|].
  destruct o; cbn in *; [now apply IH | reflexivity].
Qed.

(** [ToBuffer] gives the bytes of the opcodes one after the other when
    every opcode is a [SimpleOpcode], and panics as soon as the list
    holds an [RvaOpcode], whose [Bytes] is not implemented. *)
Theorem ToBuffer_all_or_nothing ol :
  (forallb isSimple (Ops ol) = true ->
     ToBuffer ol = Ran (flat_map bytesOf (Ops ol)))
  /\ (forallb isSimple (Ops ol) = false ->
      ToBuffer ol = Panicked "Not implemented").
Proof.
  split; intros H; unfold ToBuffer.
  - now rewrite writeAll_simple.
  - now apply writeAll_rva.
Qed.

(** *** The instructions *)

Lemma MOV_bytes ol s d :
  MOV ol s d = Ran (Add ol (SimpleOpcode [139; modrm s d])).
Proof. reflexivity. Qed.

(** [MOV] between the registers [Rax] .. [Rdi] emits [0x8B] and a
    ModRM byte with mode 3 (register direct), the source in the [reg]
    field and the destination in the [rm] field. *)
Theorem MOV_low_registers ol s d :
  0 <= s < 8 -> 0 <= d < 8 ->
  exists m,
    MOV ol s d = Ran (Add ol (SimpleOpcode [139; m]))
    /\ m = 192 + 8 * s + d
    /\ m / 64 = 3 /\ (m / 8) mod 8 = s /\ m mod 8 = d.
Proof.
  intros Hs Hd; exists (modrm s d); split; [apply MOV_bytes|].
  pose proof (@below_forall
    (fun s => forallb (fun d => modrm s d =? 192 + 8 * s + d)
                      (map Z.of_nat (seq 0 8))) 8 eq_refl s Hs) as H.
  pose proof (@below_forall _ 8 H d Hd) as H'; cbv beta in H'.
  apply Z.eqb_eq in H'; rewrite H'.
  repeat split.
  - assert (192 + 8 * s + d = 3 * 64 + (8 * s + d)) as -> by lia.
    rewrite Z.div_add_l by lia; rewrite Z.div_small; lia.
  - assert (192 + 8 * s + d = (24 + s) * 8 + d) as -> by lia.
    rewrite Z.div_add_l by lia; rewrite (Z.div_small d) by lia.
    rewrite Z.add_0_r.
    assert (24 + s = 3 * 8 + s) as -> by lia.
    rewrite Z.add_comm, Z.mod_add by lia; apply Z.mod_small; lia.
  - assert (192 + 8 * s + d = d + (24 + s) * 8) as -> by lia.
    rewrite Z.mod_add by lia; apply Z.mod_small; lia.
Qed.

(** [MOV] does not encode the registers [R8] .. [R15]: the high bits
    of the source are lost, so a source register is encoded as the one
    eight below it, and bit 3 of the destination falls into the [reg]
    field, so that [MOV] into a register from [R8] on is the [MOV] of
    another pair of registers. *)
Theorem MOV_high_registers ol s d :
  0 <= s < 256 -> 0 <= d < 8 ->
  MOV ol s d = MOV ol (s mod 8) d
  /\ MOV ol s (d + 8) = MOV ol (Z.lor (s mod 8) 1) d.
Proof.
  intros Hs Hd; rewrite !MOV_bytes.
  pose proof (@below_forall
    (fun s => forallb (fun d => (modrm s d =? modrm (s mod 8) d)
                                && (modrm s (d + 8)
                                    =? modrm (Z.lor (s mod 8) 1) d))
                      (map Z.of_nat (seq 0 8))) 256 eq_refl s Hs) as H.
  pose proof (@below_forall _ 8 H d Hd) as H'; cbv beta in H'.
  apply andb_prop in H'; destruct H' as [H1 H2].
  apply Z.eqb_eq in H1, H2; now rewrite H1, H2.
Qed.

(** [PUSH] and [POP] of the registers [Rax] .. [Rdi] emit the one byte
    [0x50 + r] and [0x58 + r]; the [PUSH] of a register from [R8] on
    emits the byte of the [POP] of the register eight below it. *)
Theorem PUSH_POP_bytes ol r :
  0 <= r < 8 ->
  PUSH ol r = Ran (Add ol (SimpleOpcode [80 + r]))
  /\ POP ol r = Ran (Add ol (SimpleOpcode [88 + r]))
  /\ PUSH ol (r + 8) = POP ol r.
Proof.
  intros Hr; unfold PUSH, POP, op, BuilderBytes, Write, Build, uint8;
    cbn [binaryWrite andThen buf app].
  rewrite !Z.mod_small by lia.
  repeat split; do 4 f_equal; lia.
Qed.

(** [PUSHI] writes the whole 32-bit value after the opcode byte, also
    when it picks the opcode [0x6A] of the one-byte immediate for a
    value up to 255: the instruction always takes five bytes. *)
Theorem PUSHI_bytes ol val :
  0 <= val < 2 ^ 32 ->
  exists code imm,
    PUSHI ol val = Ran (Add ol (SimpleOpcode (code :: imm)))
    /\ length imm = 4%nat
    /\ value imm = val
    /\ (val <= 255 -> code = 106)
    /\ (255 < val -> code = 104).
Proof.
  intros Hv.
  exists (if val <=? 255 then 106 else 104), (littleEndian 4 val).
  split; [reflexivity|].
  split; [apply length_littleEndian|].
  split; [rewrite value_littleEndian; apply Z.mod_small; cbn; lia|].
  split; intros H.
  - apply Z.leb_le in H; now rewrite H.
  - apply Z.leb_gt in H; now rewrite H.
Qed.

(** [CALL] emits [FF 14 25] and the low 32 bits of the address: two
    addresses that agree on them are encoded alike. *)
Theorem CALL_bytes ol r :
  exists imm,
    CALL ol r = Ran (Add ol (SimpleOpcode ([255; 20; 37] ++ imm)))
    /\ length imm = 4%nat
    /\ value imm = r mod 2 ^ 32
    /\ forall r', r' mod 2 ^ 32 = r mod 2 ^ 32 -> CALL ol r' = CALL ol r.
Proof.
  exists (littleEndian 4 (uint32 r)); split; [reflexivity|].
  split; [apply length_littleEndian|].
  split.
  - rewrite value_littleEndian; unfold uint32.
    change (256 ^ Z.of_nat 4) with (2 ^ 32); apply Z.mod_mod; lia.
  - intros r' H; unfold CALL, uint32; now rewrite H.
Qed.

(** [CALLI] panics on a nil address (it is of no type [binary.Write]
    encodes) and otherwise emits [FF 14 25] and the eight bytes of the
    value the address points to. *)
Theorem CALLI_bytes ol :
  (exists message, CALLI ol None = Panicked message)
  /\ forall v, 0 <= v < 2 ^ 64 ->
       exists imm,
         CALLI ol (Some v)
         = Ran (Add ol (SimpleOpcode ([255; 20; 37] ++ imm)))
         /\ length imm = 8%nat /\ value imm = v.
Proof.
  split; [eexists; reflexivity|]; intros v Hv.
  exists (littleEndian 8 v); split; [reflexivity|].
  split; [apply length_littleEndian|].
  rewrite value_littleEndian; apply Z.mod_small; cbn; lia.
Qed.

(** [MOVI] knows the register [Rcx] only, for which it emits [0xB9]
    and the value in two's complement; for any other register it
    panics and adds nothing. *)
Theorem MOVI_bytes ol destReg val :
  - 2 ^ 31 <= val < 2 ^ 31 ->
  (destReg <> Rcx -> exists message, MOVI ol destReg val = Panicked message)
  /\ (destReg = Rcx ->
      exists imm,
        MOVI ol destReg val = Ran (Add ol (SimpleOpcode (185 :: imm)))
        /\ length imm = 4%nat
        /\ signed32 (value imm) = val).
Proof.
  intros Hv; split; intros H; unfold MOVI.
  - apply Z.eqb_neq in H; rewrite H; eexists; reflexivity.
  - subst destReg; cbn [Z.eqb Rcx Pos.eqb].
    exists (littleEndian 4 (val mod 2 ^ 32)); split; [reflexivity|].
    split; [apply length_littleEndian|].
    rewrite value_littleEndian.
    change (256 ^ Z.of_nat 4) with (2 ^ 32); rewrite Z.mod_mod by lia.
    unfold signed32.
    destruct (Z_lt_le_dec val 0) as [Hneg | Hpos].
    + assert (val mod 2 ^ 32 = val + 2 ^ 32) as ->.
      { symmetry; apply Z.mod_unique with (-1); lia. }
      destruct (_ <? _) eqn:E; [apply Z.ltb_lt in E; lia | lia].
    + rewrite Z.mod_small by lia.
      destruct (_ <? _) eqn:E; [reflexivity | apply Z.ltb_ge in E; lia].
Qed.

(** *** The address of the list *)

Lemma perform_adds ol c ol' :
  perform ol c = Ran ol' ->
  exists bytes,
    ol' = Add ol (SimpleOpcode bytes) /\ (length bytes < 256)%nat.
Proof.
  destruct c; cbn [perform];
    unfold CALL, CALLI, MOV, MOVM, MOVI, PUSH, PUSHI, POP, RET, SUB, op,
      BuilderBytes, Write, Build;
    try match goal with
        | |- context [RvaPointer ?r] => destruct r
        | |- context [_ =? Rcx] => destruct (_ =? Rcx)
        end;
    cbn [binaryWrite andThen buf app]; intros [= <-];
    eexists; (split; [reflexivity|]); cbn [length];
    rewrite ?length_littleEndian; lia.
Qed.

Lemma uint64_add_l a b : uint64 (uint64 a + b) = uint64 (a + b).
Proof. unfold uint64; apply Zplus_mod_idemp_l. Qed.

Lemma Add_tracks r0 ol bytes :
  tracks r0 ol -> (length bytes < 256)%nat ->
  tracks r0 (Add ol (SimpleOpcode bytes)).
Proof.
  intros (b & Hb & Hr) Hlen; exists (b ++ bytes); split.
  - now rewrite ToBuffer_Add, Hb.
  - unfold Rva in *; cbn [Add rva Len]; rewrite Hr.
    assert (Hsmall : uint64 (uint8 (Z.of_nat (length bytes)))
                     = Z.of_nat (length bytes)).
    { unfold uint64, uint8; change (2 ^ 8) with 256.
      change (2 ^ 64) with 18446744073709551616.
      rewrite (Z.mod_small (Z.of_nat (length bytes)) 256) by lia.
      apply Z.mod_small; lia. }
    rewrite Hsmall, uint64_add_l, length_app, Nat2Z.inj_add.
    f_equal; lia.
Qed.

Lemma performAll_tracks r0 cs ol ol' :
  tracks r0 ol -> performAll ol cs = Ran ol' -> tracks r0 ol'.
Proof.
  revert ol; induction cs as [|c cs IH]; intros ol Ht; cbn [performAll].
  - now intros [= <-].
  - destruct (perform ol c) as [ol1|] eqn:E; cbn [andThen]; [|discriminate].
    apply perform_adds in E; destruct E as (bytes & -> & Hlen).
    apply IH; now apply Add_tracks.
Qed.

(** Whatever instructions are added to a list started at the address
    [r0], if none of them panics the buffer can be written out and the
    address of the list is [r0] plus the number of bytes of the buffer
    (modulo 64 bits). *)
Theorem rva_tracks_buffer r0 cs ol :
  0 <= r0 < 2 ^ 64 ->
  performAll (NewOpcodeList r0) cs = Ran ol ->
  exists bytes,
    ToBuffer ol = Ran bytes
    /\ Rva ol = uint64 (r0 + Z.of_nat (length bytes)).
Proof.
  intros Hr; apply performAll_tracks.
  exists []; split; [reflexivity|].
  unfold Rva, NewOpcodeList, uint64; cbn [rva length].
  rewrite Z.add_0_r; symmetry; apply Z.mod_small; exact Hr.
Qed.

(** [SUB] emits no byte: it adds an empty opcode, so the buffer and the
    address of the list stay as they are. *)
Theorem SUB_emits_nothing ol reg n :
  0 <= Rva ol < 2 ^ 64 ->
  exists ol',
    SUB ol reg n = Ran ol'
    /\ ToBuffer ol' = ToBuffer ol
    /\ Rva ol' = Rva ol
    /\ length (Ops ol') = S (length (Ops ol)).
Proof.
  intros Hr; eexists; split; [reflexivity|]; repeat split.
  - rewrite ToBuffer_Add; destruct (ToBuffer ol); cbn; [|reflexivity].
    now rewrite app_nil_r.
  - unfold Rva in *; cbn [Add rva Len length Z.of_nat].
    change (uint64 (uint8 0)) with 0.
    rewrite Z.add_0_r; apply Z.mod_small; exact Hr.
  - cbn [Add Ops]; rewrite length_app; cbn; lia.
Qed.


(** *** Witnesses *)

(** The witness of [rva_tracks_buffer]: the frame laid at address 4096. *)
Lemma rva_tracks_buffer_witness :
  exists bytes,
    ToBuffer frameAt4096 = Ran bytes
    /\ Rva frameAt4096 = uint64 (4096 + Z.of_nat (length bytes)).
Proof.
  refine (@rva_tracks_buffer 4096 frame frameAt4096 _ eq_refl).
  cbn; lia.
Defined.

(** [MOV] from [Rsp] to [Rbp]. *)
Lemma MOV_low_registers_witness :
  exists m,
    MOV (NewOpcodeList 0) Rsp Rbp
    = Ran (Add (NewOpcodeList 0) (SimpleOpcode [139; m]))
    /\ m = 192 + 8 * Rsp + Rbp
    /\ m / 64 = 3 /\ (m / 8) mod 8 = Rsp /\ m mod 8 = Rbp.
Proof.
  apply (@MOV_low_registers (NewOpcodeList 0) Rsp Rbp);
    unfold Rsp, Rbp; lia.
Defined.

(** [MOV] from [R9] is the [MOV] from [Rcx], and [MOV] from [Rax] into
    [R9] is the [MOV] from [Rcx] into [Rcx]. *)
Lemma MOV_high_registers_witness :
  MOV (NewOpcodeList 0) R9 Rcx = MOV (NewOpcodeList 0) (R9 mod 8) Rcx
  /\ MOV (NewOpcodeList 0) R9 (Rcx + 8)
     = MOV (NewOpcodeList 0) (Z.lor (R9 mod 8) 1) Rcx.
Proof.
  apply (@MOV_high_registers (NewOpcodeList 0) R9 Rcx);
    unfold R9, Rcx; lia.
Defined.

(** [PUSH] and [POP] of [Rbp]. *)
Lemma PUSH_POP_bytes_witness :
  PUSH (NewOpcodeList 0) Rbp
  = Ran (Add (NewOpcodeList 0) (SimpleOpcode [80 + Rbp]))
  /\ POP (NewOpcodeList 0) Rbp
     = Ran (Add (NewOpcodeList 0) (SimpleOpcode [88 + Rbp]))
  /\ PUSH (NewOpcodeList 0) (Rbp + 8) = POP (NewOpcodeList 0) Rbp.
Proof.
  apply (@PUSH_POP_bytes (NewOpcodeList 0) Rbp); unfold Rbp; lia.
Defined.

(** [PUSHI] of 72. *)
Lemma PUSHI_bytes_witness :
  exists code imm,
    PUSHI (NewOpcodeList 0) 72
    = Ran (Add (NewOpcodeList 0) (SimpleOpcode (code :: imm)))
    /\ length imm = 4%nat
    /\ value imm = 72
    /\ (72 <= 255 -> code = 106)
    /\ (255 < 72 -> code = 104).
Proof. apply (@PUSHI_bytes (NewOpcodeList 0) 72); cbn; lia. Defined.

(** [MOVI] of -1 into [Rcx]. *)
Lemma MOVI_bytes_witness :
  (Rcx <> Rcx -> exists message,
     MOVI (NewOpcodeList 0) Rcx (-1) = Panicked message)
  /\ (Rcx = Rcx ->
      exists imm,
        MOVI (NewOpcodeList 0) Rcx (-1)
        = Ran (Add (NewOpcodeList 0) (SimpleOpcode (185 :: imm)))
        /\ length imm = 4%nat
        /\ signed32 (value imm) = -1).
Proof. apply (@MOVI_bytes (NewOpcodeList 0) Rcx (-1)); cbn; lia. Defined.

(** [SUB] on the frame. *)
Lemma SUB_emits_nothing_witness :
  exists ol',
    SUB frameAt4096 Rsp 32 = Ran ol'
    /\ ToBuffer ol' = ToBuffer frameAt4096
    /\ Rva ol' = Rva frameAt4096
    /\ length (Ops ol') = S (length (Ops frameAt4096)).
Proof. apply (@SUB_emits_nothing frameAt4096 Rsp 32); cbn; lia. Defined.


(** The frame is written out whole; with an [RvaOpcode] after it the
    buffer cannot be written. *)
Lemma ToBuffer_all_or_nothing_witness :
  ToBuffer frameAt4096 = Ran (flat_map bytesOf (Ops frameAt4096))
  /\ ToBuffer (Add frameAt4096 (RvaOpcode [232] None))
     = Panicked "Not implemented".
Proof.
  split.
  - exact (proj1 (ToBuffer_all_or_nothing frameAt4096) eq_refl).
  - exact (proj2 (ToBuffer_all_or_nothing
                    (Add frameAt4096 (RvaOpcode [232] None))) eq_refl).
Defined.

End X64Proofs.

(* ------------------------------------------------------------------ *)
(** ** Properties of the tree walk *)

Module WalkProofs.

Import Semantic Stated StatedMore SemanticProofs.

Section Facts.

Context {SymTab : Type} {ops : SymTabOps SymTab}.

Local Abbreviation Node := (Node SymTab).
Local Abbreviation error := (error SymTab).
Local Abbreviation Walked := (Result (Node * list error)).

Implicit Types (n root : Node) (ns : list Node).

Lemma bind_done (m : Walked) :
  bind m (fun '(r, e) => Done (r, e)) = m.
Proof. now destruct m as [[r e]| |]. Qed.

Lemma eachNode_app (f : Node -> Node -> Walked) root ns ms :
  eachNode f root (ns ++ ms)
  = bind (eachNode f root ns) (fun '(r1, e1) =>
      bind (eachNode f r1 ms) (fun '(r2, e2) => Done (r2, e1 ++ e2))).
Proof.
  revert root; induction ns as [|x ns IH]; intros root; cbn [eachNode app].
  - cbn [bind]; symmetry; apply bind_done.
  - destruct (f root x) as [[r a]| |]; cbn [bind]; try reflexivity.
    rewrite IH.
    destruct (eachNode f r ns) as [[r1 e1]| |]; cbn [bind]; try reflexivity.
    destruct (eachNode f r1 ms) as [[r2 e2]| |]; cbn [bind]; try reflexivity.
    now rewrite app_assoc.
Qed.

Lemma eachNode_one (f : Node -> Node -> Walked) root x :
  eachNode f root [x] = f root x.
Proof.
  cbn [eachNode]; destruct (f root x) as [[r a]| |]; cbn [bind];
    try reflexivity.
  now rewrite app_nil_r.
Qed.

Lemma walk_eq (visit : @Visitor SymTab) root n :
  walk visit root n
  = bind (optNode (walk visit) root (left n)) (fun '(root, e1) =>
    bind (optNode (walk visit) root (right n)) (fun '(root, e2) =>
    bind (eachNode (walk visit) root (params n)) (fun '(root, e3) =>
    bind (eachNode (walk visit) root (stmts n)) (fun '(root, e4) =>
    bind (visitNode visit root n) (fun '(root, e5) =>
    Done (root, e1 ++ e2 ++ e3 ++ e4 ++ e5)))))).
Proof. destruct n; reflexivity. Qed.

Lemma postorder_eq n :
  postorder n
  = match left n with Some x => postorder x | None => [] end
    ++ match right n with Some x => postorder x | None => [] end
    ++ flat_map (@postorder SymTab) (params n)
    ++ flat_map (@postorder SymTab) (stmts n)
    ++ [n].
Proof. destruct n; reflexivity. Qed.

Lemma eachNode_walk (visit : @Visitor SymTab) ns :
  (forall x, In x ns -> forall root,
      walk visit root x
      = eachNode (visitNode visit) root (postorder x)) ->
  forall root,
    eachNode (walk visit) root ns
    = eachNode (visitNode visit) root (flat_map (@postorder SymTab) ns).
Proof.
  induction ns as [|x ns IH]; intros H root; cbn [eachNode flat_map];
    [reflexivity|].
  rewrite eachNode_app, (H x (or_introl eq_refl)).
  destruct (eachNode (visitNode visit) root (postorder x)) as [[r a]| |];
    cbn [bind]; try reflexivity.
  rewrite IH by (intros y Hy; apply H; now right); reflexivity.
Qed.

Lemma walk_postorder_sized (visit : @Visitor SymTab) k :
  forall n, size n <= k -> forall root,
    walk visit root n = eachNode (visitNode visit) root (postorder n).
Proof.
  induction k as [|k IH]; intros n Hk root.
  - rewrite (size_eq n) in Hk; lia.
  - rewrite walk_eq, postorder_eq.
    assert (Hopt : forall c root, osize c <= k ->
               optNode (walk visit) root c
               = eachNode (visitNode visit) root
                   match c with Some x => postorder x | None => [] end).
    { intros [x|] r Hc; cbn [optNode]; [apply IH; exact Hc | reflexivity]. }
    assert (Hall : forall ms root, lsize ms <= k ->
               eachNode (walk visit) root ms
               = eachNode (visitNode visit) root
                   (flat_map (@postorder SymTab) ms)).
    { intros ms r Hms; apply eachNode_walk; intros x Hx r'; apply IH.
      apply lsize_in in Hx; lia. }
    rewrite (size_eq n) in Hk.
    rewrite eachNode_app, Hopt by lia.
    destruct (eachNode _ root _) as [[r1 e1]| |]; cbn [bind];
      try reflexivity.
    rewrite eachNode_app, Hopt by lia.
    destruct (eachNode _ r1 _) as [[r2 e2]| |]; cbn [bind]; try reflexivity.
    rewrite eachNode_app, Hall by lia.
    destruct (eachNode _ r2 _) as [[r3 e3]| |]; cbn [bind]; try reflexivity.
    rewrite eachNode_app, Hall by lia.
    destruct (eachNode _ r3 _) as [[r4 e4]| |]; cbn [bind]; try reflexivity.
    rewrite eachNode_one.
    destruct (visitNode visit r4 n) as [[r5 e5]| |]; reflexivity.
Qed.

(** [walk] visits the nodes of the tree once each, children before
    their parent and in the order left, right, parameters, statements:
    it is the visit, one after the other, of the nodes in post-order,
    each visit getting the root the one before left, and the errors
    coming in that order.  An error returned by a visit does not end the
    walk; a panic of a visit does.  The walks of a list of trees, one
    after the other, are the visits of their nodes in that order. *)
Theorem walk_postorder (visit : @Visitor SymTab) root n :
  walk visit root n = eachNode (visitNode visit) root (postorder n)
  /\ forall ns,
       eachNode (walk visit) root ns
       = eachNode (visitNode visit) root (flat_map (@postorder SymTab) ns).
Proof.
  split.
  - now apply walk_postorder_sized with (size n).
  - intros ns; apply eachNode_walk; intros x _ r.
    now apply walk_postorder_sized with (size x).
Qed.

(** *** Constructor synthesis over a tree *)






End Facts.


End WalkProofs.

(* ------------------------------------------------------------------ *)
(** ** Further properties of the type checker *)

Module CheckerProofs.

Import Semantic Stated StatedMore SemanticProofs.

(** The operator table accepts operands for the six arithmetic and
    boolean operators only, and kinds among Integer, String, Array and
    Boolean only; two operands of different kinds are both accepted by
    no operator but [+], so the operator case can report mismatched
    types for [+] alone. *)
Theorem only_addition_mixes_kinds (o : Op) (k1 k2 : TypeKind) :
  (isValid o k1 = true ->
     isOperator o = true
     /\ (k1 = Integer \/ k1 = String \/ k1 = Array \/ k1 = Boolean))
  /\ (isValid o k1 = true -> isValid o k2 = true -> k1 <> k2 -> o = opAdd).
Proof.
  split.
  - destruct o, k1; cbn; intros H; try discriminate H; split; tauto.
  - destruct o; try (intros H; discriminate H);
      destruct k1; try (intros H; discriminate H);
      destruct k2; try (intros _ H; discriminate H);
      intros _ _ H; try reflexivity; now elim H.
Qed.

Section Facts.

Context {SymTab : Type} {ops : SymTabOps SymTab}.

Local Abbreviation Node := (Node SymTab).
Local Abbreviation error := (error SymTab).
Local Abbreviation Checked := (Result (Node * list error)).

Implicit Types (n l r : Node) (fn : option (FunctionType SymTab))
         (fuel : nat).

(** The check ends on a tree with fuel to its size, normally or by a
    panic of the code; more fuel gives the same; and the tree that
    comes back has no more nodes than the tree that went in. *)
Theorem typeCheck_ends fuel fn n :
  size n <= fuel ->
  typeCheck fuel fn n <> OutOfFuel
  /\ typeCheck fuel fn n = typeCheck (size n) fn n
  /\ forall n' es, typeCheck fuel fn n = Done (n', es) -> size n' <= size n.
Proof.
  intros Hle.
  destruct (typeCheck_enough_fuel fn n Hle) as [Hne Hsz].
  destruct (typeCheck_total fn n Hle) as [Heq _].
  repeat split; assumption.
Qed.

Lemma checkAll_done (chk : Node -> Checked) (ns ns' : list Node) es :
  checkAll chk ns = Done (ns', es) ->
  es = flat_map (fun x => errorsOf (chk x)) ns
  /\ length ns' = length ns
  /\ forall x, In x ns -> exists x' e, chk x = Done (x', e).
Proof.
  revert ns' es; induction ns as [|x ns IH]; intros ns' es; cbn [checkAll].
  - intros [= <- <-]; repeat split; intros x [].
  - destruct (chk x) as [[x' e1]| |] eqn:Ex; cbn [bind]; try discriminate.
    destruct (checkAll chk ns) as [[xs' e2]| |]; cbn [bind];
      try discriminate.
    intros [= <- <-]; destruct (IH _ _ eq_refl) as (He & Hl & Hin).
    cbn [flat_map length]; rewrite Ex; cbn [errorsOf].
    repeat split; [now rewrite He | now rewrite Hl|].
    intros y [<- | Hy]; [eauto | now apply Hin].
Qed.

(** The check of a function declaration goes through every parameter
    and every statement, whatever errors they give: when it ends, its
    errors are those of the parameters followed by those of the
    statements, each checked on its own, in order; the declaration
    takes the type of its symbol. *)
Theorem declaration_checks_all fuel fn n n' es :
  op n = opFuncDcl ->
  typeCheck (S fuel) fn n = Done (n', es) ->
  es = flat_map (fun x => errorsOf (typeCheck fuel fn x)) (params n)
       ++ flat_map (fun x => errorsOf (typeCheck fuel fn x)) (stmts n)
  /\ (forall x, In x (params n ++ stmts n) ->
        exists x' e, typeCheck fuel fn x = Done (x', e))
  /\ length (params n') = length (params n)
  /\ length (stmts n') = length (stmts n)
  /\ typ n' = option_map (@SymType _) (sym n).
Proof.
  intros Hop; rewrite typeCheck_S; unfold typeCheckBody; rewrite Hop.
  destruct (checkAll _ (params n)) as [[ps e1]| |] eqn:Ep; cbn [bind];
    try discriminate.
  cbn [stmts set_params].
  destruct (checkAll _ (stmts n)) as [[ss e2]| |] eqn:Es; cbn [bind];
    try discriminate.
  cbn [sym set_stmts set_params].
  destruct (sym n) as [s|]; cbn [deref bind]; [|discriminate].
  unfold finish, printTypeInfo; cbn [token set_typ set_stmts set_params].
  destruct (token n); cbn [deref bind]; [|discriminate].
  intros [= <- <-]; cbn [params stmts typ set_typ option_map].
  apply checkAll_done in Ep, Es.
  destruct Ep as (-> & Hlp & Hip), Es as (-> & Hls & His).
  repeat split; trivial.
  intros x Hx; apply in_app_or in Hx; destruct Hx; auto.
Qed.

(** *** Going through the cases of [typeCheckBody] *)

Lemma yields_panic P w : @yields SymTab P (Panic w).
Proof. intros n' es H; discriminate H. Qed.

Lemma yields_fuel P : @yields SymTab P OutOfFuel.
Proof. intros n' es H; discriminate H. Qed.

Lemma yields_done (P : Node -> list error -> Prop) n' es :
  P n' es -> yields P (Done (n', es)).
Proof. intros H m fs [= <- <-]; exact H. Qed.

Lemma checkAll_length (chk : Node -> Checked) (ns ns' : list Node) es :
  checkAll chk ns = Done (ns', es) -> length ns' = length ns.
Proof. intros H; now apply checkAll_done in H. Qed.

(** One step through the code: a dereference, a downcast, a branch, a
    recursive call (whose result is named and kept with its equation)
    or the loop over a list of nodes. *)
Ltac pace :=
  first
  [ progress cbn [bind deref left right stmts params token typ sym op
                  symtab set_left set_right set_stmts set_params set_typ
                  set_sym]
  | rewrite bind_assoc
  | apply yields_panic
  | apply yields_fuel
  | match goal with
    | |- yields _ (bind (deref ?o) _) => destruct o eqn:?
    | |- yields _ (bind (AsFunction ?t) _) =>
        unfold AsFunction; destruct (Data t)
    | |- yields _ (bind (AsStruct ?t) _) =>
        unfold AsStruct; destruct (Data t)
    | |- yields _ (bind (if ?b then _ else _) _) => destruct b eqn:?
    | |- yields _ (if ?b then _ else _) => destruct b eqn:?
    | |- yields _ (match ?o with Some _ => _ | None => _ end) =>
        destruct o eqn:?
    | |- yields _ (let (_, _) := ?x in _) => destruct x
    | |- yields _ (Done (if ?b then _ else _, _)) => destruct b
    | |- yields _ (bind (checkAll ?chk ?ns) _) =>
        let E := fresh "Eall" in
        destruct (checkAll chk ns) as [[? ?]| |] eqn:E;
        [apply checkAll_length in E | | ]
    | |- yields _ (bind (?chk ?x) _) =>
        let E := fresh "Echk" in
        destruct (chk x) as [[? ?]| |] eqn:E
    end ].

Ltac paces :=
  unfold typeCheckBody, checkCall, checkOperator, checkField, finish,
    printTypeInfo, checkChild;
  repeat pace.

Lemma typeCheckBody_sameShape (chk : Node -> Checked) fn n :
  (forall x, yields (fun x' _ => sameShape x x') (chk x)) ->
  yields (fun n' _ => sameShape n n') (typeCheckBody chk fn n).
Proof.
  intros Hchk; destruct (op n) eqn:Hop;
    unfold typeCheckBody; rewrite Hop; paces.
  all: try (apply yields_done; left; cbn; repeat split; congruence).
  (* the rewritten dot node *)
  apply yields_done; right; split; [exact Hop|].
  match goal with
  | E : chk (rewriteDot _ _ _) = Done (?a, _) |- _ =>
      destruct (Hchk _ _ _ E) as [(H & _) | (H & _)];
      [exact H | discriminate H]
  end.
Qed.

(** The check keeps the operator, the token and the scope of a node and
    the number of its statements and parameters; the one exception is
    the dot node it rewrites into a call. *)
Theorem typeCheck_sameShape fuel fn n n' es :
  typeCheck fuel fn n = Done (n', es) -> sameShape n n'.
Proof.
  revert n n' es; induction fuel as [|fuel IH]; intros n n' es;
    [discriminate|].
  rewrite typeCheck_S; intros H.
  refine (@typeCheckBody_sameShape (typeCheck fuel fn) fn n _ n' es H).
  intros x x' e Hx; exact (IH _ _ _ Hx).
Qed.

(** In every case that starts with the check of the left operand, the
    errors of a finished check start with the errors of the left
    operand: what follows never takes them back. *)
Theorem left_errors_first fuel fn n l n' es :
  leftFirst (op n) = true ->
  left n = Some l ->
  typeCheck (S fuel) fn n = Done (n', es) ->
  exists l' e1 rest,
    typeCheck fuel fn l = Done (l', e1) /\ es = e1 ++ rest.
Proof.
  intros Hlf Hl; rewrite typeCheck_S.
  set (chk := typeCheck fuel fn).
  intros H; revert n' es H.
  change (yields (fun _ es => exists l' e1 rest,
                      chk l = Done (l', e1) /\ es = e1 ++ rest)
                 (typeCheckBody chk fn n)).
  destruct (op n) eqn:Hop; try discriminate Hlf;
    unfold typeCheckBody; rewrite Hop;
    unfold checkCall, checkOperator, checkField, finish, printTypeInfo,
      checkChild;
    rewrite Hl; cbn [deref bind];
    (destruct (chk l) as [[l' e1]| |] eqn:El; cbn [bind];
     [| apply yields_panic | apply yields_fuel]);
    repeat pace.
  all: apply yields_done; exists l', e1; eexists; split; [reflexivity|].
  all: first [ rewrite <- ?app_assoc; reflexivity
             | symmetry; apply app_nil_r ].
Qed.

End Facts.

(** *** Witnesses *)

(** The check of [(1 + "s").f(2)] with fuel 10. *)
Lemma typeCheck_ends_witness :
  typeCheck 10 None Examples.methodCall <> OutOfFuel
  /\ typeCheck 10 None Examples.methodCall
     = typeCheck (size Examples.methodCall) None Examples.methodCall
  /\ forall n' es,
       typeCheck 10 None Examples.methodCall = Done (n', es) ->
       size n' <= size Examples.methodCall.
Proof.
  apply (@typeCheck_ends Scope ScopeOps 10 None Examples.methodCall).
  vm_compute; lia.
Defined.

(** The check of [fn main() { undefinedName  f(undefinedName) }]. *)
Lemma declaration_checks_all_witness :
  exists n' es,
    typeCheck 4 None MoreExamples.mainDecl = Done (n', es)
    /\ es = flat_map (fun x => errorsOf (typeCheck 3 None x))
                     (params MoreExamples.mainDecl)
            ++ flat_map (fun x => errorsOf (typeCheck 3 None x))
                        (stmts MoreExamples.mainDecl)
    /\ length es = 2.
Proof.
  do 2 eexists; split; [vm_compute; reflexivity|].
  split; [|reflexivity].
  refine (proj1 (@declaration_checks_all Scope ScopeOps 3 None
                   MoreExamples.mainDecl _ _ eq_refl eq_refl)).
Defined.

(** The check of [(1 + "s").f(2)] gives a call. *)
Lemma typeCheck_sameShape_witness :
  exists n' es,
    typeCheck 10 None Examples.methodCall = Done (n', es)
    /\ sameShape Examples.methodCall n'.
Proof.
  do 2 eexists; split; [vm_compute; reflexivity|].
  refine (@typeCheck_sameShape Scope ScopeOps 10 None
            Examples.methodCall _ _ eq_refl).
Defined.

(** The check of [undefinedName.f(2)] starts with the error on
    [undefinedName]. *)
Lemma left_errors_first_witness :
  exists n' es l' e1 rest,
    typeCheck 10 None Examples.methodCallOnUndefined = Done (n', es)
    /\ typeCheck 9 None (Examples.ident "undefinedName") = Done (l', e1)
    /\ es = e1 ++ rest
    /\ length e1 = 1.
Proof.
  destruct (@left_errors_first Scope ScopeOps 9 None
              Examples.methodCallOnUndefined
              (Examples.ident "undefinedName") _ _
              eq_refl eq_refl eq_refl)
    as (l' & e1 & rest & Hl & He).
  do 2 eexists; exists l', e1, rest.
  split; [reflexivity|]; split; [exact Hl|]; split; [exact He|].
  revert Hl; vm_compute; now intros [= <- <-].
Defined.

End CheckerProofs.

(* ------------------------------------------------------------------ *)
(** ** Further properties of the parser and of the driver *)

Module ParserMore.

Import Syntax Stated StatedMore ParserProofs.

Lemma Kind_eqb_eq (a b : Lex.Kind) : Lex.Kind_eqb a b = true <-> a = b.
Proof. destruct a, b; cbn; split; intros H; congruence. Qed.

Section Facts.

Context {env : Env}.

Implicit Types (p : Parser) (k : Lex.Kind).

(** [is] and [isNot] on a token: each says the contrary of the other,
    whatever kinds are asked for, and neither changes the parser.  With
    no token at the position, both panic unless no kind is asked
    for. *)
Theorem is_and_isNot kinds p :
  (forall t, nth_error (tokens p) (pos p) = Some t ->
     is_ kinds p = Ok (existsb (Lex.Kind_eqb (Lex.Kind_ t)) kinds) p
     /\ isNot kinds p
        = Ok (negb (existsb (Lex.Kind_eqb (Lex.Kind_ t)) kinds)) p)
  /\ (nth_error (tokens p) (pos p) = None -> kinds <> [] ->
      is_ kinds p = Crash IndexOutOfRange p
      /\ isNot kinds p = Crash IndexOutOfRange p).
Proof.
  split.
  - intros t Ht; induction kinds as [|k kinds [IH1 IH2]];
      [split; reflexivity|].
    split.
    + cbn [is_ existsb]; unfold mbind, current; rewrite Ht.
      destruct (Lex.Kind_eqb (Lex.Kind_ t) k); [reflexivity | exact IH1].
    + cbn [isNot existsb]; unfold mbind at 1; rewrite is_one, Ht.
      destruct (Lex.Kind_eqb (Lex.Kind_ t) k); [reflexivity | exact IH2].
  - intros Hn Hk; destruct kinds as [|k kinds]; [now elim Hk|].
    split.
    + cbn [is_]; unfold mbind, current; now rewrite Hn.
    + cbn [isNot]; unfold mbind at 1; now rewrite is_one, Hn.
Qed.

Lemma parseLoop_ok gas root p root' u q :
  parseLoop gas root p = (root', Ok u q) -> inRange q.
Proof.
  revert root p; induction gas as [|gas IH]; intros root p;
    cbn [parseLoop]; rewrite isNot_one;
    destruct (nth_error (tokens p) (pos p)) as [t|] eqn:Ht;
    try (intros [= _ _ _]; fail); try discriminate;
    destruct (negb _) eqn:Hb; try discriminate;
    try (intros [= _ _ <-]; now apply current_token with t).
  rewrite is_one, Ht.
  destruct (Lex.Kind_eqb (Lex.Kind_ t) Lex.Fn).
  - destruct (fnDeclaration p) as [d q1 | q1 | w q1 |]; try discriminate.
    apply IH.
  - destruct (mbind (syntaxError [Lex.Fn; Lex.EOF]) (fun _ => next) p)
      as [d q1 | q1 | w q1 |]; try discriminate.
    apply IH.
Qed.

Lemma parseBody_ok_EOF p root u p' :
  parseBody p = (root, Ok u p') ->
  exists t,
    nth_error (tokens p) (pos p' - 1) = Some t
    /\ Lex.Kind_ t = Lex.EOF
    /\ 0 < pos p' < length (tokens p).
Proof.
  unfold parseBody.
  pose proof (steady_parseLoop (remaining p)
                (fold_left Add (extra p) (MkNode None [] opRoot None)) p)
    as Hst.
  destruct (parseLoop _ _ p) as [r [v q | q | w q |]] eqn:El;
    try discriminate.
  cbn [snd steadyFrom] in Hst; destruct Hst as (Htok & _ & _).
  apply parseLoop_ok in El.
  unfold mbind, mret.
  pose proof (need_spec Lex.EOF q) as Hn.
  pose proof (@ranged_need _ Lex.EOF q El) as Hr.
  pose proof (steady_need Lex.EOF q) as Hs.
  destruct (need Lex.EOF q) as [t q1 | q1 | w q1 |]; try discriminate.
  intros [= _ _ <-]; cbn [needSpec] in Hn.
  destruct Hn as (Hk & Hnth & Hpos & _).
  destruct Hs as (Htq & _ & _).
  exists t; rewrite <- Htok; repeat split; trivial.
  - now apply Kind_eqb_eq.
  - lia.
  - unfold inRange in Hr; rewrite Htq in Hr; lia.
Qed.

Lemma terminated_never_returns p root u p' :
  terminated (tokens p) -> parseBody p <> (root, Ok u p').
Proof.
  intros Ht E; apply parseBody_ok_EOF in E.
  destruct E as (t & Hnth & Hk & Hpos).
  specialize (Ht _ _ Hnth Hk); lia.
Qed.

Lemma unwinds_or_refuses p :
  inRange p ->
  (forall root u p', parseBody p <> (root, Ok u p')) ->
  unwound p \/ Parse p = Panicked ParseIntFailed.
Proof.
  intros Hp Hno.
  destruct (Parse_returns Hp) as [(es & root & H) | H]; [|now right].
  left; unfold unwound; revert H; unfold Parse.
  destruct (parseBody p) as [r [u q | q | w q |]] eqn:E; try discriminate.
  - now elim (Hno r u q).
  - intros _; now exists r, q.
Qed.

(** [Parse] reaches its [return] statement only on a stream that holds
    an end marker before its last token. *)
Theorem return_needs_inner_EOF p root u p' :
  parseBody p = (root, Ok u p') ->
  exists i t,
    nth_error (tokens p) i = Some t
    /\ Lex.Kind_ t = Lex.EOF
    /\ S i < length (tokens p).
Proof.
  intros E; apply parseBody_ok_EOF in E.
  destruct E as (t & Hnth & Hk & Hpos).
  exists (pos p' - 1), t; repeat split; trivial; lia.
Qed.

(** On a stream that is not empty and whose only end marker is its
    last token, [Parse] never reaches its [return] statement: it comes
    back through the recovered panic of [next()], with the errors and
    the root of that moment, unless an integer literal is refused by
    [strconv.ParseInt]. *)
Theorem Parse_unwinds p :
  inRange p -> terminated (tokens p) ->
  unwound p \/ Parse p = Panicked ParseIntFailed.
Proof.
  intros Hp Ht; apply unwinds_or_refuses; [exact Hp|].
  intros root u p'; now apply terminated_never_returns.
Qed.

End Facts.

(** *** The token loop of [main] *)

Lemma lexLoop_kept fuel NextToken i acc ts :
  Driver.lexLoop fuel NextToken i acc = Driver.Tokens ts ->
  exists more eof,
    ts = acc ++ more ++ [eof]
    /\ Lex.Kind_ eof = Lex.EOF
    /\ Forall kept more.
Proof.
  revert i acc; induction fuel as [|fuel IH]; intros i acc;
    cbn [Driver.lexLoop]; [discriminate|].
  destruct (Lex.Kind_ (NextToken i)) eqn:Hk; try discriminate;
    try (intros H; apply IH in H; destruct H as (more & eof & -> & He & Hm);
         first
           [ exists (NextToken i :: more), eof; rewrite <- app_assoc;
             split; [reflexivity|]; split; [exact He|];
             constructor; [|exact Hm];
             unfold kept, Driver.isBlank; rewrite Hk;
             repeat split; discriminate
           | exists more, eof; split; [reflexivity|]; now split ]).
  intros [= <-]; exists [], (NextToken i); repeat split; trivial.
Qed.


Lemma kept_terminated more eof :
  Lex.Kind_ eof = Lex.EOF -> Forall kept more -> terminated (more ++ [eof]).
Proof.
  intros He Hm i t Hnth Hk.
  rewrite length_app; cbn [length].
  destruct (Nat.lt_ge_cases i (length more)) as [Hlt | Hge].
  - rewrite nth_error_app1 in Hnth by exact Hlt.
    apply nth_error_In in Hnth.
    rewrite Forall_forall in Hm; destruct (Hm t Hnth) as [Hne _].
    now elim Hne.
  - assert (Hs : nth_error (more ++ [eof]) i <> None) by congruence.
    apply nth_error_Some in Hs; rewrite length_app in Hs; cbn in Hs; lia.
Qed.

(** [main] never lets the parser read past its tokens: whatever the
    lexer gives, on the tokens the loop of [main] keeps the parser comes
    back through the recovered panic of [next()], unless an integer
    literal is refused by [strconv.ParseInt]. *)
Theorem main_parse_unwinds {env : Env} fuel NextToken ts ex :
  Driver.lexLoop fuel NextToken 0 [] = Driver.Tokens ts ->
  unwound (NewParser ts ex)
  \/ Parse (NewParser ts ex) = Panicked ParseIntFailed.
Proof.
  intros H; apply lexLoop_kept in H.
  destruct H as (more & eof & -> & He & Hm); cbn [app].
  apply unwinds_or_refuses.
  - unfold inRange, NewParser; cbn [pos tokens].
    rewrite length_app; cbn; lia.
  - intros root u p'; apply terminated_never_returns.
    unfold NewParser; cbn [tokens]; now apply kept_terminated.
Qed.

(** *** Witnesses *)

(** [is(fn, EOF)] and [isNot(fn, EOF)] on the stray literal. *)
Lemma is_and_isNot_witness :
  is_ [Lex.Fn; Lex.EOF] (NewParser ParserExamples.strayLiteral [])
  = Ok false (NewParser ParserExamples.strayLiteral [])
  /\ isNot [Lex.Fn; Lex.EOF] (NewParser ParserExamples.strayLiteral [])
     = Ok true (NewParser ParserExamples.strayLiteral []).
Proof.
  exact (proj1 (@is_and_isNot TableEnv [Lex.Fn; Lex.EOF]
                  (NewParser ParserExamples.strayLiteral []))
               (ParserExamples.tk Lex.Integer "1") eq_refl).
Defined.

(** Two end markers: [Parse] returns by its [return] statement. *)
Lemma return_needs_inner_EOF_witness :
  exists i t,
    nth_error MoreExamples.twoEnds i = Some t
    /\ Lex.Kind_ t = Lex.EOF
    /\ S i < length MoreExamples.twoEnds.
Proof.
  exact (@return_needs_inner_EOF TableEnv
           (NewParser MoreExamples.twoEnds [])
           (MkNode None [] opRoot None) tt
           (MkParser 1 MoreExamples.twoEnds [] false NewSymtab [])
           eq_refl).
Defined.

(** The stray literal and the end marker. *)
Lemma Parse_unwinds_witness :
  unwound (NewParser ParserExamples.strayLiteral [])
  \/ Parse (NewParser ParserExamples.strayLiteral [])
     = Panicked ParseIntFailed.
Proof.
  apply (@Parse_unwinds TableEnv (NewParser ParserExamples.strayLiteral [])).
  - unfold inRange; cbn; lia.
  - apply (@kept_terminated [ParserExamples.tk Lex.Integer "1"]
             (ParserExamples.tk Lex.EOF "")); [reflexivity|].
    repeat constructor; discriminate.
Defined.


(** The parse of what the loop of [main] keeps of that lexer. *)
Lemma main_parse_unwinds_witness :
  unwound (NewParser ParserExamples.strayLiteral [])
  \/ Parse (NewParser ParserExamples.strayLiteral [])
     = Panicked ParseIntFailed.
Proof.
  exact (@main_parse_unwinds TableEnv 5 MoreExamples.lexer
           ParserExamples.strayLiteral [] eq_refl).
Defined.

End ParserMore.
